(** * Damped least-squares inversion ([DEPENDENCIES/inverse_dependencies.py])

    A shallow embedding of the three functions of the inversion core,
    [lsqr_solution], [residual] and [find_optimal_epsilon], and of the numpy
    operations they call, followed by the properties of the specification.
    The helpers of [DEPENDENCIES/e3_dependencies.py] and
    [DEPENDENCIES/e2_dependencies.py] follow at the end of the file.

    Numbers.  The program computes with IEEE doubles.  The embedding reads
    every number as a real number ([R] of the Standard Library) and every
    numpy operation as its exact mathematical counterpart: rounding, overflow
    and NaN are outside the model, and a statement below is a statement
    about the exact-arithmetic reading of the code, unless it names
    [Binary64].  That module embeds [lsqr_solution] once more, on binary64
    numbers: which matrices [np.linalg.inv] rejects is decided by the
    rounded elimination, not by the determinant.

    Arrays.  A numpy array carries its shape at run time, and a shape that does
    not fit raises [ValueError]; [np.linalg.inv] raises [LinAlgError] on a
    singular matrix.  Arrays are therefore records of a shape and a matrix of
    that shape, and every operation returns in the exception monad [res]. *)

From Corelib Require Import PrimFloat.
From HB Require Import structures.
From Stdlib Require Import Reals Epsilon FunctionalExtensionality.
From mathcomp Require Import ssreflect ssrfun ssrbool eqtype ssrnat seq choice.
From mathcomp Require Import fintype bigop order ssralg ssrnum matrix mxalgebra.
From mathcomp Require Import ring_tactic field_tactic arithmetic_tactic.
From mathcomp Require Import ssrint.
From Stdlib Require String.
Import String.StringSyntax.
Delimit Scope string_scope with str.

Set Implicit Arguments.
Unset Strict Implicit.
Unset Printing Implicit Defensive.

Import Order.TTheory GRing.Theory Num.Theory.

(** ** The real numbers as a MathComp real field

    The matrix library works over a [fieldType]; the instances below equip
    the Standard Library's [R] with MathComp's structures up to
    [realFieldType].  Equality and order are decided classically. *)

Local Open Scope R_scope.

Definition real_eqb (x y : R) : bool :=
  match Req_dec_T x y with left _ => true | right _ => false end.

Lemma real_eqP : Equality.axiom real_eqb.
Proof. by move=> x y; rewrite /real_eqb; case: Req_dec_T => h; constructor. Qed.

HB.instance Definition _ := hasDecEq.Build R real_eqP.

Definition real_pick (P : pred R) (_ : nat) : option R :=
  let x := epsilon (inhabits 0) (fun y => P y = true) in
  if P x then Some x else None.

Lemma real_pick_correct (P : pred R) n x : real_pick P n = Some x -> P x.
Proof. by rewrite /real_pick; case: ifP => // Px [<-]. Qed.

Lemma real_pick_complete (P : pred R) :
  (exists x, P x) -> exists n, real_pick P n.
Proof.
move=> exP; exists 0%N; rewrite /real_pick.
by have -> := epsilon_spec (inhabits 0) (fun y => P y = true) exP.
Qed.

Lemma real_pick_ext (P Q : pred R) : P =1 Q -> real_pick P =1 real_pick Q.
Proof.
move=> eqPQ n; rewrite /real_pick.
have -> : (fun y => P y = true) = (fun y => Q y = true).
  by apply: functional_extensionality => y; rewrite eqPQ.
by rewrite eqPQ.
Qed.

HB.instance Definition _ :=
  hasChoice.Build R real_pick_correct real_pick_complete real_pick_ext.

Lemma real_addA : associative Rplus.
Proof. by move=> x y z; rewrite Rplus_assoc. Qed.

HB.instance Definition _ :=
  GRing.isZmodule.Build R real_addA Rplus_comm Rplus_0_l Rplus_opp_l.

Lemma real_mulA : associative Rmult.
Proof. by move=> x y z; rewrite Rmult_assoc. Qed.

Lemma real_mulDl : left_distributive Rmult Rplus.
Proof. by move=> x y z; rewrite Rmult_plus_distr_r. Qed.

Lemma real_one_neq0 : 1 != 0 :> R.
Proof. by apply/eqP; exact: R1_neq_R0. Qed.

HB.instance Definition _ :=
  GRing.Zmodule_isComNzRing.Build R
    real_mulA Rmult_comm Rmult_1_l real_mulDl real_one_neq0.

Lemma real_mulV (x : R) : x != 0 -> / x * x = 1.
Proof. by move/eqP; exact: Rinv_l. Qed.

HB.instance Definition _ := GRing.ComNzRing_isField.Build R real_mulV Rinv_0.

Definition real_leb (x y : R) : bool :=
  match Rle_dec x y with left _ => true | right _ => false end.

Definition real_ltb (x y : R) : bool :=
  match Rlt_dec x y with left _ => true | right _ => false end.

Lemma real_leP (x y : R) : reflect (x <= y) (real_leb x y).
Proof. by rewrite /real_leb; case: Rle_dec => h; constructor. Qed.

Lemma real_ltP (x y : R) : reflect (x < y) (real_ltb x y).
Proof. by rewrite /real_ltb; case: Rlt_dec => h; constructor. Qed.

Lemma real_le0_add (x y : R) :
  real_leb 0 x -> real_leb 0 y -> real_leb 0 (x + y).
Proof.
move=> /real_leP hx /real_leP hy; apply/real_leP.
exact: Rplus_le_le_0_compat.
Qed.

Lemma real_le0_mul (x y : R) :
  real_leb 0 x -> real_leb 0 y -> real_leb 0 (x * y).
Proof.
by move=> /real_leP hx /real_leP hy; apply/real_leP; exact: Rmult_le_pos.
Qed.

Lemma real_le0_anti (x : R) : real_leb 0 x -> real_leb x 0 -> x = 0.
Proof. by move=> /real_leP hx /real_leP hy; exact: Rle_antisym. Qed.

Lemma real_sub_ge0 (x y : R) : real_leb 0 (y - x) = real_leb x y.
Proof.
apply/real_leP/real_leP => h; first by apply: Rminus_le; move: h; Lra.lra.
by move: h; Lra.lra.
Qed.

Lemma real_le0_total (x : R) : real_leb 0 x || real_leb x 0.
Proof.
case: (Rle_lt_dec 0 x) => h; apply/orP; [left|right]; apply/real_leP => //.
exact: Rlt_le.
Qed.

Lemma real_ge0_norm (x : R) : real_leb 0 x -> Rabs x = x.
Proof. by move/real_leP; exact: Rabs_pos_eq. Qed.

Lemma real_lt_def (x y : R) : real_ltb x y = (y != x) && real_leb x y.
Proof.
apply/real_ltP/andP => [h|[/eqP h /real_leP h']].
  split; last by apply/real_leP; exact: Rlt_le.
  by apply/eqP => e; move: h; rewrite e; exact: Rlt_irrefl.
by case: h' => // e; case: h.
Qed.

HB.instance Definition _ :=
  Num.IntegralDomain_isLeReal.Build R
    real_le0_add real_le0_mul real_le0_anti real_sub_ge0 real_le0_total
    Rabs_Ropp real_ge0_norm real_lt_def.

Local Close Scope R_scope.
Local Open Scope ring_scope.

(** From here on a term of type [R] is read with the ring notations. *)
Bind Scope ring_scope with R.

(** The order, the absolute value and the square root of the Standard
    Library, seen from the MathComp side. *)

Lemma RleP (x y : R) : reflect (Rle x y) (x <= y).
Proof. exact: real_leP. Qed.

Lemma RltP (x y : R) : reflect (Rlt x y) (x < y).
Proof. exact: real_ltP. Qed.

Lemma RabsE (x : R) : Rabs x = `|x|.
Proof. by []. Qed.

Lemma sqrt_ge0 (x : R) : 0 <= sqrt x.
Proof. by apply/RleP; exact: sqrt_pos. Qed.

Lemma sqr_sqrt (x : R) : 0 <= x -> sqrt x ^+ 2 = x.
Proof. by move=> /RleP x0; rewrite expr2; exact: sqrt_sqrt. Qed.

Lemma sqrt_le (x y : R) : 0 <= x -> x <= y -> sqrt x <= sqrt y.
Proof. by move=> /RleP x0 /RleP xy; apply/RleP; apply: sqrt_le_1_alt. Qed.

(** ** Exceptions

    The two numpy exceptions the code can meet, Python's [IndexError], and
    the [OverflowError] of Python's float power, which only the binary64
    reading of the code can meet.  A computation either returns a value or
    raises; [bind] sequences two computations and lets the first exception
    through. *)

Inductive exn : Type := ValueError | LinAlgError | IndexError | OverflowError.

Inductive res (T : Type) : Type :=
  | Ok of T
  | Raise of exn.

Arguments Ok {T} _.
Arguments Raise {T} _.

Definition bind {T U : Type} (x : res T) (f : T -> res U) : res U :=
  match x with
  | Ok v => f v
  | Raise e => Raise e
  end.

Notation "x <-- e ;; k" := (bind e (fun x => k))
  (at level 200, e at level 100, k at level 200, right associativity,
   format "'[v' x  <--  e  ;;  '/' k ']'").

(** ** numpy arrays

    A 2-D array is a shape [(nrows, ncols)] with its entries, a 1-D array a
    length with its entries.  [get2] and [get1] read an entry by numeric
    index, as numpy's element access does inside its kernels. *)

Record ndarray2 : Type :=
  Array2 { nrows : nat; ncols : nat; data2 : 'M[R]_(nrows, ncols) }.

Record ndarray1 : Type :=
  Array1 { len : nat; data1 : 'cV[R]_len }.

Definition get2 (A : ndarray2) (i j : nat) : R :=
  match insub i, insub j with
  | Some i', Some j' => data2 A i' j'
  | _, _ => 0
  end.

Definition get1 (v : ndarray1) (i : nat) : R :=
  match insub i with
  | Some i' => data1 v i' 0
  | None => 0
  end.

(** [A.shape] *)
Definition shape (A : ndarray2) : nat * nat := (nrows A, ncols A).

(** [np.identity(n)] *)
Definition identity (n : nat) : ndarray2 := Array2 (1%:M : 'M[R]_n).

(** [A.T] *)
Definition transpose (A : ndarray2) : ndarray2 := Array2 (data2 A)^T.

(** [np.dot(A, B)] for two 2-D arrays: the inner dimensions must agree. *)
Definition dot22 (A B : ndarray2) : res ndarray2 :=
  if ncols A == nrows B then
    Ok (Array2 (\matrix_(i < nrows A, j < ncols B)
                  \sum_(k < ncols A) get2 A i k * get2 B k j))
  else Raise ValueError.

(** [np.dot(A, v)] for a 2-D and a 1-D array: a 1-D array of [nrows A]
    entries. *)
Definition dot21 (A : ndarray2) (v : ndarray1) : res ndarray1 :=
  if ncols A == len v then
    Ok (Array1 (\col_(i < nrows A) \sum_(k < ncols A) get2 A i k * get1 v k))
  else Raise ValueError.

(** [c * A] for a scalar [c]. *)
Definition scale2 (c : R) (A : ndarray2) : ndarray2 := Array2 (c *: data2 A).

(** numpy broadcasting of one axis: two sizes fit when they are equal or one
    of them is 1; an axis of size 1 is read at index 0 throughout. *)
Definition broadcast_dim (a b : nat) : option nat :=
  if a == b then Some a
  else if a == 1%N then Some b
  else if b == 1%N then Some a
  else None.

Definition broadcast_idx (a i : nat) : nat := if a == 1%N then 0%N else i.

(** [A + B] for two 2-D arrays. *)
Definition add22 (A B : ndarray2) : res ndarray2 :=
  match broadcast_dim (nrows A) (nrows B),
        broadcast_dim (ncols A) (ncols B) with
  | Some r, Some c =>
      Ok (Array2 (\matrix_(i < r, j < c)
            (get2 A (broadcast_idx (nrows A) i) (broadcast_idx (ncols A) j)
             + get2 B (broadcast_idx (nrows B) i) (broadcast_idx (ncols B) j))))
  | _, _ => Raise ValueError
  end.

(** [u - v] for two 1-D arrays. *)
Definition sub11 (u v : ndarray1) : res ndarray1 :=
  match broadcast_dim (len u) (len v) with
  | Some n =>
      Ok (Array1 (\col_(i < n)
            (get1 u (broadcast_idx (len u) i)
             - get1 v (broadcast_idx (len v) i))))
  | None => Raise ValueError
  end.

(** [np.linalg.inv(A)]: [LinAlgError] when [A] is not square or is singular,
    the inverse matrix otherwise.  This is the exact-arithmetic reading; on
    doubles the routine raises when its elimination meets a pivot that is
    exactly zero, see [Binary64.inv]. *)
Definition inv (A : ndarray2) : res ndarray2 :=
  if nrows A == ncols A then
    let A' := \matrix_(i < nrows A, j < nrows A) get2 A i j in
    if A' \in unitmx then Ok (Array2 (invmx A')) else Raise LinAlgError
  else Raise LinAlgError.

(** [np.linalg.norm(v)] for a 1-D array: the Euclidean norm. *)
Definition norm (v : ndarray1) : R := sqrt (\sum_(i < len v) data1 v i 0 ^+ 2).

(** [np.argmin(s)] for a list: the index of the first occurrence of the
    minimum; [ValueError] on an empty list.  [argmin_from best besti i s]
    scans [s], whose first entry has index [i], holding the least value seen
    so far and the index where it first occurred. *)
Fixpoint argmin_from (best : R) (besti i : nat) (s : seq R) : nat :=
  match s with
  | [::] => besti
  | x :: s' =>
      if x < best then argmin_from x i i.+1 s'
      else argmin_from best besti i.+1 s'
  end.

Definition argmin (s : seq R) : res nat :=
  match s with
  | [::] => Raise ValueError
  | x :: s' => Ok (argmin_from x 0 1 s')
  end.

(** [s[i]] for a list and a non-negative index. *)
Definition getitem (s : seq R) (i : nat) : res R :=
  if (i < size s)%N then Ok (nth 0 s i) else Raise IndexError.

(** ** The inversion core *)

(** [lsqr_solution(G, d, epsilon)] *)
Definition lsqr_solution (G : ndarray2) (d : ndarray1) (epsilon : R)
  : res ndarray1 :=
  let: (_, M) := shape G in
  let I := identity M in
  GtG <-- dot22 (transpose G) G ;;
  A <-- add22 GtG (scale2 (epsilon ^+ 2) I) ;;
  A_inv <-- inv A ;;
  A_inv_Gt <-- dot22 A_inv (transpose G) ;;
  dot21 A_inv_Gt d.

(** [residual(d, G, m)] *)
Definition residual (d : ndarray1) (G : ndarray2) (m : ndarray1) : res R :=
  d_est <-- dot21 G m ;;
  diff <-- sub11 d d_est ;;
  Ok (norm diff ^+ 2).

(** The loop of [find_optimal_epsilon]: [residuals] is the list built so far,
    [todo] the candidates still to visit. *)
Fixpoint residuals_loop (G : ndarray2) (d : ndarray1) (noise_norm : R)
    (todo : seq R) (residuals : seq R) : res (seq R) :=
  match todo with
  | [::] => Ok residuals
  | epsilon :: todo' =>
      m_est <-- lsqr_solution G d epsilon ;;
      r <-- residual d G m_est ;;
      residuals_loop G d noise_norm todo'
        (rcons residuals `|r - noise_norm ^+ 2|)
  end.

(** [find_optimal_epsilon(G, d, epsilon_values, noise_norm)] *)
Definition find_optimal_epsilon (G : ndarray2) (d : ndarray1)
    (epsilon_values : seq R) (noise_norm : R) : res R :=
  residuals <-- residuals_loop G d noise_norm epsilon_values [::] ;;
  i <-- argmin residuals ;;
  getitem epsilon_values i.

(** ** The mathematics of the specification

    [normal_mx G eps] is the matrix [GᵗG + ε²·I_M] of the specification,
    [dotv] the Euclidean inner product of two column vectors and [sqnorm] the
    squared Euclidean norm. *)

Definition normal_mx (N M : nat) (G : 'M[R]_(N, M)) (eps : R) : 'M[R]_M :=
  G^T *m G + eps ^+ 2 *: 1%:M.

Definition dotv (n : nat) (x y : 'cV[R]_n) : R := \sum_i x i 0 * y i 0.

Definition sqnorm (n : nat) (x : 'cV[R]_n) : R := \sum_i x i 0 ^+ 2.

(** The functional that damped least squares minimises. *)
Definition tikhonov (N M : nat) (G : 'M[R]_(N, M)) (d : 'cV[R]_N) (eps : R)
    (m : 'cV[R]_M) : R :=
  sqnorm (G *m m - d) + eps ^+ 2 * sqnorm m.

(** The closed form of ordinary least squares, [(GᵗG)⁻¹Gᵗd], as the
    specification writes it. *)
Definition ols_closed_form (N M : nat) (G : 'M[R]_(N, M)) (d : 'cV[R]_N)
  : 'cV[R]_M :=
  invmx (G^T *m G) *m G^T *m d.

(** The discrepancy score of one candidate, as the specification writes it:
    [|residual(d, G, solve(G, d, ε)) − noise_norm²|]. *)
Definition score (G : ndarray2) (d : ndarray1) (noise_norm epsilon : R)
  : res R :=
  m_est <-- lsqr_solution G d epsilon ;;
  r <-- residual d G m_est ;;
  Ok `|r - noise_norm ^+ 2|.

(** ** Concrete inputs used in the examples below *)

(** The candidate list [[1, 2]]. *)
Definition one_two : seq R := [:: 1; 2].

(** The [2×1] matrix [[1], [1]]. *)
Definition ones_21 : 'M[R]_(2, 1) := const_mx 1.

(** The vector [[1, 1]]. *)
Definition ones_2 : 'cV[R]_2 := const_mx 1.

(** ** Inner products and squared norms *)

Section InnerProduct.

Variable n : nat.
Implicit Types x y z : 'cV[R]_n.

Lemma dotvE x y : dotv x y = (x^T *m y) 0 0.
Proof. by rewrite mxE; apply: eq_bigr => i _; rewrite mxE. Qed.

Lemma sqnormE x : sqnorm x = dotv x x.
Proof. by apply: eq_bigr => i _; rewrite expr2. Qed.

Lemma dotvC x y : dotv x y = dotv y x.
Proof. by apply: eq_bigr => i _; rewrite mulrC. Qed.

Lemma dotvDl x y z : dotv (x + y) z = dotv x z + dotv y z.
Proof.
by rewrite /dotv -big_split; apply: eq_bigr => i _; rewrite mxE mulrDl.
Qed.

Lemma dotvDr x y z : dotv x (y + z) = dotv x y + dotv x z.
Proof. by rewrite dotvC dotvDl !(dotvC x). Qed.

Lemma dotvZl (c : R) x y : dotv (c *: x) y = c * dotv x y.
Proof.
by rewrite /dotv mulr_sumr; apply: eq_bigr => i _; rewrite mxE mulrA.
Qed.

Lemma dotvZr (c : R) x y : dotv x (c *: y) = c * dotv x y.
Proof. by rewrite dotvC dotvZl dotvC. Qed.

Lemma dotvNl x y : dotv (- x) y = - dotv x y.
Proof. by rewrite -scaleN1r dotvZl mulN1r. Qed.

Lemma dotvNr x y : dotv x (- y) = - dotv x y.
Proof. by rewrite dotvC dotvNl dotvC. Qed.

Lemma dotv0l y : dotv 0 y = 0.
Proof. by rewrite /dotv big1 // => i _; rewrite mxE mul0r. Qed.

Lemma sqnorm_ge0 x : 0 <= sqnorm x.
Proof. by apply: sumr_ge0 => i _; exact: sqr_ge0. Qed.

Lemma sqnorm_eq0 x : (sqnorm x == 0) = (x == 0).
Proof.
apply/eqP/eqP => [x0|->]; last by rewrite sqnormE dotv0l.
apply/colP => i; rewrite mxE.
have /(_ i isT) := psumr_eq0P (fun j _ => sqr_ge0 (x j 0)) x0.
by move/eqP; rewrite sqrf_eq0 => /eqP.
Qed.

Lemma sqnormD x y : sqnorm (x + y) = sqnorm x + 2 * dotv x y + sqnorm y.
Proof.
rewrite !sqnormE dotvDl !dotvDr (dotvC y x).
by rewrite mulr2n mulrDl mul1r !addrA.
Qed.

End InnerProduct.

Lemma dotv_mulmx (N M : nat) (G : 'M[R]_(N, M)) (x : 'cV[R]_M)
    (y : 'cV[R]_N) :
  dotv (G *m x) y = dotv x (G^T *m y).
Proof. by rewrite !dotvE trmx_mul mulmxA. Qed.

(** ** Arrays of a known shape

    On an array built from a matrix of a given shape, the numpy operations
    are the matrix operations. *)

Lemma broadcast_idx_ord (k : nat) (i : 'I_k) : broadcast_idx k i = i.
Proof.
rewrite /broadcast_idx; case: eqP => // k1.
by case: i => i /=; rewrite k1 ltnS leqn0 => /eqP.
Qed.

Lemma broadcast_dim_same (k : nat) : broadcast_dim k k = Some k.
Proof. by rewrite /broadcast_dim eqxx. Qed.

Lemma get2E (m n : nat) (A : 'M[R]_(m, n)) (i : 'I_m) (j : 'I_n) :
  get2 (Array2 A) i j = A i j.
Proof. by rewrite /get2 /= !valK. Qed.

Lemma get1E (n : nat) (v : 'cV[R]_n) (i : 'I_n) : get1 (Array1 v) i = v i 0.
Proof. by rewrite /get1 /= valK. Qed.

Lemma dot22E (m n p : nat) (A : 'M[R]_(m, n)) (B : 'M[R]_(n, p)) :
  dot22 (Array2 A) (Array2 B) = Ok (Array2 (A *m B)).
Proof.
rewrite /dot22 /= eqxx; congr (Ok (Array2 _)).
by apply/matrixP => i j; rewrite !mxE; apply: eq_bigr => k _; rewrite !get2E.
Qed.

Lemma dot21E (m n : nat) (A : 'M[R]_(m, n)) (v : 'cV[R]_n) :
  dot21 (Array2 A) (Array1 v) = Ok (Array1 (A *m v)).
Proof.
rewrite /dot21 /= eqxx; congr (Ok (Array1 _)).
apply/colP => i; rewrite !mxE; apply: eq_bigr => k _.
by rewrite get2E get1E.
Qed.


Lemma add22E (m n : nat) (A B : 'M[R]_(m, n)) :
  add22 (Array2 A) (Array2 B) = Ok (Array2 (A + B)).
Proof.
rewrite /add22 /= !broadcast_dim_same; congr (Ok (Array2 _)).
by apply/matrixP => i j; rewrite !mxE !broadcast_idx_ord !get2E.
Qed.

Lemma sub11E (n : nat) (u v : 'cV[R]_n) :
  sub11 (Array1 u) (Array1 v) = Ok (Array1 (u - v)).
Proof.
rewrite /sub11 /= broadcast_dim_same; congr (Ok (Array1 _)).
by apply/colP => i; rewrite !mxE !broadcast_idx_ord !get1E.
Qed.

Lemma invE (n : nat) (A : 'M[R]_n) :
  inv (Array2 A) =
  if A \in unitmx then Ok (Array2 (invmx A)) else Raise LinAlgError.
Proof.
rewrite /inv /= eqxx.
have -> : \matrix_(i, j) get2 (Array2 A) i j = A.
  by apply/matrixP => i j; rewrite mxE get2E.
by [].
Qed.

Section NormalEquations.

Variables (N M : nat) (G : 'M[R]_(N, M)).
Implicit Types (x m : 'cV[R]_M) (d : 'cV[R]_N) (eps : R).

Lemma normal_mx_mul eps x :
  normal_mx G eps *m x = G^T *m (G *m x) + eps ^+ 2 *: x.
Proof. by rewrite /normal_mx mulmxDl -mulmxA -scalemxAl mul1mx. Qed.

Lemma normal_mx_sym eps : (normal_mx G eps)^T = normal_mx G eps.
Proof.
by rewrite /normal_mx linearD /= trmx_mul trmxK linearZ /= trmx1.
Qed.

(** The quadratic form of [GᵗG + ε²I] is [‖Gx‖² + ε²‖x‖²]. *)
Lemma normal_mx_quad eps x :
  dotv x (normal_mx G eps *m x) = sqnorm (G *m x) + eps ^+ 2 * sqnorm x.
Proof.
by rewrite normal_mx_mul dotvDr -dotv_mulmx dotvZr -!sqnormE.
Qed.

Lemma normal_mx_quad_ge0 eps x : 0 <= dotv x (normal_mx G eps *m x).
Proof.
rewrite normal_mx_quad addr_ge0 ?sqnorm_ge0 // mulr_ge0 ?sqnorm_ge0 //.
exact: sqr_ge0.
Qed.

(** A vector the normal matrix sends to 0 is sent to 0 by [G], and is 0
    itself when the damping is not. *)
Lemma normal_mx_ker eps x :
  normal_mx G eps *m x = 0 -> G *m x = 0 /\ (eps != 0 -> x = 0).
Proof.
move=> Ax0; have := normal_mx_quad eps x; rewrite Ax0 dotvC dotv0l.
have ge0 : 0 <= eps ^+ 2 * sqnorm x by rewrite mulr_ge0 ?sqnorm_ge0 ?sqr_ge0.
move/esym/eqP; rewrite (paddr_eq0 (sqnorm_ge0 _) ge0).
rewrite sqnorm_eq0 mulf_eq0 sqrf_eq0 sqnorm_eq0 => /andP[/eqP Gx0 e0x0].
by split=> // /negPf e0; move: e0x0; rewrite e0 /= => /eqP.
Qed.

Lemma unitmx_ker (A : 'M[R]_M) :
  A^T = A -> (forall x, A *m x = 0 -> x = 0) -> A \in unitmx.
Proof.
move=> symA kerA; rewrite -row_free_unit -kermx_eq0; apply/eqP.
apply/row_matrixP => i; rewrite row0.
have : row i (kermx A) *m A = 0 by rewrite -row_mul mulmx_ker row0.
move/(congr1 trmx); rewrite trmx_mul symA trmx0 => /kerA.
by move/(congr1 trmx); rewrite trmxK trmx0.
Qed.

(** With a damping that is not 0 the normal matrix is invertible, whatever
    [G] is. *)
Lemma normal_mx_unit eps : eps != 0 -> normal_mx G eps \in unitmx.
Proof.
move=> e0; apply: unitmx_ker (normal_mx_sym eps) _ => x Ax0.
by case: (normal_mx_ker Ax0) => _; apply.
Qed.

(** Without damping it is invertible when [G] has full column rank ... *)
Lemma normal_mx0_unit : \rank G = M -> normal_mx G 0 \in unitmx.
Proof.
move=> rkG; apply: unitmx_ker (normal_mx_sym 0) _ => x Ax0.
case: (normal_mx_ker Ax0) => Gx0 _.
have freeG : row_free G^T by rewrite /row_free mxrank_tr rkG.
apply: trmx_inj; apply: (row_free_inj freeG).
by rewrite -trmx_mul Gx0 !trmx0 mul0mx.
Qed.


(** A solution of the normal equations minimises the Tikhonov functional:
    the functional at [m] exceeds its value at the solution by the quadratic
    form at the difference. *)
Lemma tikhonov_gap eps d m0 dm :
  normal_mx G eps *m m0 = G^T *m d ->
  tikhonov G d eps (m0 + dm) =
  tikhonov G d eps m0 + dotv dm (normal_mx G eps *m dm).
Proof.
move=> eqn; rewrite /tikhonov.
have -> : G *m (m0 + dm) - d = (G *m m0 - d) + G *m dm.
  by rewrite mulmxDr addrAC.
have cross : dotv (G *m m0 - d) (G *m dm) + eps ^+ 2 * dotv m0 dm = 0.
  rewrite dotvC dotv_mulmx mulmxBr -(dotvC dm) -dotvZr -dotvDr.
  by rewrite addrAC -normal_mx_mul eqn subrr dotvC dotv0l.
rewrite normal_mx_quad !sqnormD.
move: cross; set c1 := dotv (G *m m0 - d) _; set c2 := dotv m0 dm.
set a := sqnorm (G *m m0 - d); set b := sqnorm (G *m dm).
set c := sqnorm m0; set e := sqnorm dm; set t := eps ^+ 2.
move=> cross; have -> : c1 = - (t * c2) by apply/eqP; rewrite -addr_eq0 cross.
by ring.
Qed.

End NormalEquations.

(** ** The three functions on arrays of a known shape *)

Section Core.

Variables (N M : nat) (G : 'M[R]_(N, M)).

(** [lsqr_solution] inverts the normal matrix before it looks at [d]. *)
Lemma lsqr_solution_any (d : ndarray1) (eps : R) :
  lsqr_solution (Array2 G) d eps =
  if normal_mx G eps \in unitmx
  then dot21 (Array2 (invmx (normal_mx G eps) *m G^T)) d
  else Raise LinAlgError.
Proof.
rewrite /lsqr_solution /shape /transpose /identity /scale2 /=.
rewrite dot22E /= add22E /= invE -/(normal_mx G eps).
by case: ifP => //= _; rewrite dot22E.
Qed.

Lemma lsqr_solutionE (d : 'cV[R]_N) (eps : R) :
  lsqr_solution (Array2 G) (Array1 d) eps =
  if normal_mx G eps \in unitmx
  then Ok (Array1 (invmx (normal_mx G eps) *m G^T *m d))
  else Raise LinAlgError.
Proof. by rewrite lsqr_solution_any dot21E. Qed.

Lemma normE (n : nat) (v : 'cV[R]_n) : norm (Array1 v) = sqrt (sqnorm v).
Proof. by []. Qed.

Lemma sqr_norm (n : nat) (v : 'cV[R]_n) : norm (Array1 v) ^+ 2 = sqnorm v.
Proof. by rewrite normE sqr_sqrt ?sqnorm_ge0. Qed.

Lemma residualE (d : 'cV[R]_N) (m : 'cV[R]_M) :
  residual (Array1 d) (Array2 G) (Array1 m) = Ok (sqnorm (d - G *m m)).
Proof. by rewrite /residual dot21E /= sub11E /= sqr_norm. Qed.

(** The score of a candidate whose normal matrix is invertible. *)
Definition score_value (d : 'cV[R]_N) (noise_norm eps : R) : R :=
  `|sqnorm (d - G *m (invmx (normal_mx G eps) *m G^T *m d))
    - noise_norm ^+ 2|.

Lemma scoreE (d : 'cV[R]_N) (nn eps : R) :
  score (Array2 G) (Array1 d) nn eps =
  if normal_mx G eps \in unitmx then Ok (score_value d nn eps)
  else Raise LinAlgError.
Proof.
by rewrite /score lsqr_solutionE; case: ifP => //= _; rewrite residualE.
Qed.

(** The loop stops at the first candidate whose solve raises, and otherwise
    appends the scores in the order of the candidates. *)
Lemma residuals_loop_ok (d : 'cV[R]_N) (nn : R) (todo acc : seq R) :
  {in todo, forall e, normal_mx G e \in unitmx} ->
  residuals_loop (Array2 G) (Array1 d) nn todo acc =
  Ok (acc ++ [seq score_value d nn e | e <- todo]).
Proof.
elim: todo acc => [|e todo IH] acc unit_todo /=; first by rewrite cats0.
rewrite lsqr_solutionE unit_todo ?mem_head //= residualE /=.
rewrite IH ?cat_rcons // => e' e'todo.
by rewrite unit_todo // in_cons e'todo orbT.
Qed.


End Core.

(** ** [np.argmin] returns the first index of the minimum *)

Lemma argmin_fromP (s pre : seq R) (best : R) (besti : nat) :
  (besti < size pre)%N -> best = nth 0 pre besti ->
  (forall j, (j < size pre)%N -> best <= nth 0 pre j) ->
  (forall j, (j < besti)%N -> best < nth 0 pre j) ->
  let i := argmin_from best besti (size pre) s in
  [/\ (i < size (pre ++ s))%N,
      forall j, (j < size (pre ++ s))%N ->
        nth 0 (pre ++ s) i <= nth 0 (pre ++ s) j
    & forall j, (j < i)%N -> nth 0 (pre ++ s) i < nth 0 (pre ++ s) j].
Proof.
elim: s pre best besti => [|x s IH] pre best besti lt_besti def_best le_pre lt_pre.
  by rewrite /= cats0 -def_best; split.
have size_rcons_pre : size (rcons pre x) = (size pre).+1 by rewrite size_rcons.
rewrite /= -cat_rcons -size_rcons_pre; case: ltP => [lt_x|le_x].
- apply: IH => [||j|j].
  + by rewrite size_rcons.
  + by rewrite nth_rcons ltnn eqxx.
  + rewrite size_rcons ltnS leq_eqVlt nth_rcons => /predU1P[->|lt_j].
      by rewrite ltnn eqxx.
    by rewrite lt_j ltW // (lt_le_trans lt_x) // le_pre.
  + by move=> lt_j; rewrite nth_rcons lt_j (lt_le_trans lt_x) // le_pre.
- apply: IH => [||j|j].
  + by rewrite size_rcons ltnW.
  + by rewrite nth_rcons lt_besti.
  + rewrite size_rcons ltnS leq_eqVlt nth_rcons => /predU1P[->|lt_j].
      by rewrite ltnn eqxx.
    by rewrite lt_j le_pre.
  + by move=> lt_j; rewrite nth_rcons (ltn_trans lt_j lt_besti) lt_pre.
Qed.

Lemma argminP (s : seq R) :
  s <> [::] ->
  exists i : nat,
    [/\ argmin s = Ok i, (i < size s)%N,
        forall j, (j < size s)%N -> nth 0 s i <= nth 0 s j
      & forall j, (j < i)%N -> nth 0 s i < nth 0 s j].
Proof.
case: s => [|x s] // _; exists (argmin_from x 0 1 s).
have le_pre j : (j < size [:: x])%N -> x <= nth 0 [:: x] j by case: j.
have lt_pre j : (j < 0)%N -> x < nth 0 [:: x] j by [].
by case: (@argmin_fromP s [:: x] x 0%N isT erefl le_pre lt_pre).
Qed.

(** ** Solutions of the normal equations *)

Section Solutions.

Variables (N M : nat) (G : 'M[R]_(N, M)) (d : 'cV[R]_N).

(** The vector [lsqr_solution] returns when the normal matrix is
    invertible. *)
Definition solution (eps : R) : 'cV[R]_M :=
  invmx (normal_mx G eps) *m G^T *m d.

Lemma solution_eqn eps :
  normal_mx G eps \in unitmx -> normal_mx G eps *m solution eps = G^T *m d.
Proof. by move=> unitA; rewrite /solution -mulmxA mulKVmx. Qed.

Lemma normal_mx_inverse eps (B : 'M[R]_M) :
  B *m normal_mx G eps = 1%:M ->
  normal_mx G eps \in unitmx /\ invmx (normal_mx G eps) = B.
Proof.
move=> BA1; have [_ unitA] := mulmx1_unit BA1; split=> //.
by rewrite -[LHS]mul1mx -BA1 mulmxK.
Qed.

(** The solution minimises the Tikhonov functional, and nothing else does. *)
Lemma solution_min eps m :
  normal_mx G eps \in unitmx ->
  tikhonov G d eps (solution eps) <= tikhonov G d eps m.
Proof.
move=> unitA; rewrite -[m](subrK (solution eps)) addrC.
rewrite (tikhonov_gap _ (solution_eqn unitA)).
by rewrite lerDl normal_mx_quad_ge0.
Qed.

Lemma solution_min_uniq eps m :
  normal_mx G eps \in unitmx ->
  tikhonov G d eps m = tikhonov G d eps (solution eps) -> m = solution eps.
Proof.
move=> unitA; rewrite -[m](subrK (solution eps)) addrC.
rewrite (tikhonov_gap _ (solution_eqn unitA)) => /eqP.
rewrite -subr_eq0 addrC addKr => /eqP quad0.
set dm := m - solution eps in quad0 *.
suff -> : dm = 0 by rewrite addr0.
have := normal_mx_quad G eps dm; rewrite quad0 => /esym/eqP.
have ge0 : 0 <= eps ^+ 2 * sqnorm dm by rewrite mulr_ge0 ?sqnorm_ge0 ?sqr_ge0.
rewrite (paddr_eq0 (sqnorm_ge0 _) ge0) sqnorm_eq0 mulf_eq0 sqnorm_eq0.
case/andP=> /eqP Gdm0 e0dm0.
have Adm0 : normal_mx G eps *m dm = 0.
  rewrite normal_mx_mul Gdm0 mulmx0 add0r.
  by case/orP: e0dm0 => /eqP->; rewrite ?scale0r ?scaler0.
by rewrite -[dm](mulKmx unitA) Adm0 mulmx0.
Qed.

(** More damping never lengthens the solution. *)
Lemma solution_shrinks e1 e2 :
  normal_mx G e1 \in unitmx -> normal_mx G e2 \in unitmx ->
  0 <= e1 -> e1 <= e2 ->
  sqnorm (solution e2) <= sqnorm (solution e1).
Proof.
move=> unit1 unit2 e1_ge0 le_e12.
set m1 := solution e1; set m2 := solution e2; set dm := m1 - m2.
set c := e2 ^+ 2 - e1 ^+ 2.
have c_ge0 : 0 <= c by rewrite /c; nra.
have A1dm : normal_mx G e1 *m dm = c *: m2.
  rewrite mulmxBr (solution_eqn unit1) -(solution_eqn unit2) !normal_mx_mul.
  by rewrite opprD addrACA subrr add0r scalerBl.
have cross : 0 <= c * dotv m2 dm.
  by rewrite -dotvZl -A1dm dotvC normal_mx_quad_ge0.
have -> : sqnorm m1 = sqnorm m2 + 2 * dotv m2 dm + sqnorm dm.
  by rewrite -sqnormD /dm addrC subrK.
have dm_ge0 := sqnorm_ge0 dm.
move: c_ge0; rewrite le_eqVlt => /predU1P[c0|c_gt0]; last first.
  have : 0 <= dotv m2 dm by rewrite -(pmulr_rge0 _ c_gt0).
  by move: dm_ge0; set u := sqnorm dm; set v := dotv m2 dm; lra.
have dm0 : dm = 0.
  by rewrite -[dm](mulKmx unit1) A1dm -c0 scale0r mulmx0.
by rewrite dm0 dotvC dotv0l mulr0 addr0 lerDl sqnorm_ge0.
Qed.

End Solutions.

(** ** The search *)

Section Search.

Variables (N M : nat) (G : 'M[R]_(N, M)).


Lemma residuals_loop_sing (d : 'cV[R]_N) (nn : R) (todo acc : seq R) :
  has (fun e => normal_mx G e \notin unitmx) todo ->
  residuals_loop (Array2 G) (Array1 d) nn todo acc = Raise LinAlgError.
Proof.
elim: todo acc => [|e todo IH] acc //=; rewrite lsqr_solutionE.
by case: ifP => //= _ sing; rewrite residualE /= IH.
Qed.

(** With every candidate solvable, the search is [argmin] over the list of
    scores followed by a look-up. *)
Lemma find_optimal_epsilon_ok (d : 'cV[R]_N) (eps_values : seq R) (nn : R) :
  eps_values <> [::] ->
  {in eps_values, forall e, normal_mx G e \in unitmx} ->
  exists i : nat,
    [/\ (i < size eps_values)%N,
        find_optimal_epsilon (Array2 G) (Array1 d) eps_values nn
        = Ok (nth 0 eps_values i),
        forall j, (j < size eps_values)%N ->
          score_value G d nn (nth 0 eps_values i)
          <= score_value G d nn (nth 0 eps_values j)
      & forall j, (j < i)%N ->
          score_value G d nn (nth 0 eps_values i)
          < score_value G d nn (nth 0 eps_values j)].
Proof.
move=> eps_n0 unit_eps; rewrite /find_optimal_epsilon residuals_loop_ok //=.
set scores := [seq _ | e <- eps_values].
have scores_n0 : scores <> [::] by rewrite /scores; case: (eps_values) eps_n0.
have [i [-> lt_i min_i first_i]] := argminP scores_n0.
move: lt_i min_i first_i; rewrite size_map => lt_i min_i first_i.
exists i; rewrite /= /getitem lt_i; split=> // j lt_j.
  by have := min_i j lt_j; rewrite !(nth_map 0).
have lt_j' := ltn_trans lt_j lt_i.
by have := first_i j lt_j; rewrite !(nth_map 0).
Qed.

End Search.

(** ** Facts about concrete inputs *)

Lemma normal_mx_scalar (n : nat) (a eps : R) :
  normal_mx (a%:M : 'M[R]_n) eps = (a * a + eps ^+ 2)%:M.
Proof. by rewrite /normal_mx tr_scalar_mx -scalar_mxM scalemx1 -raddfD. Qed.

Lemma normal_mx_zero (N M : nat) : normal_mx (0 : 'M[R]_(N, M)) 0 = 0.
Proof. by rewrite /normal_mx mulmx0 expr0n /= scale0r addr0. Qed.

Lemma zero_mx_sing (n : nat) : (0 : 'M[R]_n.+1) \notin unitmx.
Proof. by rewrite -row_free_unit /row_free mxrank0. Qed.

Lemma lsqr_solution_zero (N M : nat) (d : ndarray1) :
  lsqr_solution (Array2 (0 : 'M[R]_(N, M.+1))) d 0 = Raise LinAlgError.
Proof.
by rewrite lsqr_solution_any normal_mx_zero (negPf (zero_mx_sing M)).
Qed.

(** ** C1: the damped solution *)

(** C1, counterexample: with [G = [[0]]], [d = [0]] and [ε = 0] the matrix
    [GᵗG + ε²I] is the zero matrix, [np.linalg.inv] raises, and
    [lsqr_solution] returns no vector at all. *)
Lemma lsqr_solution_zero_raises :
  lsqr_solution (Array2 (0 : 'M[R]_1)) (Array1 (0 : 'cV[R]_1)) 0
  = Raise LinAlgError.
Proof. exact: lsqr_solution_zero. Qed.

(** C1, as amended: for every [N×M] matrix [G], every vector [d] of length
    [N] and every [ε] such that [GᵗG + ε²·I_M] has an inverse [B],
    [lsqr_solution(G, d, ε)] returns the vector [B·Gᵗ·d], and the returned
    vector has length [M]. *)
Theorem lsqr_solution_formula (N M : nat) (G : 'M[R]_(N, M)) (d : 'cV[R]_N)
    (eps : R) (B : 'M[R]_M) :
  B *m normal_mx G eps = 1%:M ->
  exists m_est : ndarray1,
    [/\ lsqr_solution (Array2 G) (Array1 d) eps = Ok m_est,
        len m_est = M
      & m_est = Array1 (B *m G^T *m d)].
Proof.
move=> /normal_mx_inverse[unitA invA].
by exists (Array1 (B *m G^T *m d)); rewrite lsqr_solutionE unitA invA.
Qed.

Lemma half_inverse : (2^-1)%:M *m normal_mx (1%:M : 'M[R]_1) 1 = 1%:M.
Proof.
rewrite normal_mx_scalar -scalar_mxM; congr (_%:M).
by rewrite mul1r expr1n -mulr2n mulVf // pnatr_eq0.
Qed.

Lemma lsqr_solution_formula_witness :
  (2^-1)%:M *m normal_mx (1%:M : 'M[R]_1) 1 = 1%:M /\
  exists m_est : ndarray1,
    [/\ lsqr_solution (Array2 (1%:M : 'M[R]_1)) (Array1 (1%:M : 'cV[R]_1)) 1
        = Ok m_est,
        len m_est = 1%N
      & m_est = Array1 ((2^-1)%:M *m (1%:M : 'M[R]_1)^T *m 1%:M)].
Proof.
split; first exact: half_inverse.
exact: (@lsqr_solution_formula 1 1 1%:M 1%:M 1 (2^-1)%:M half_inverse).
Defined.

(** ** C2: the search returns the first candidate of least score *)

(** C2, counterexample: with [G = [[0]]], [d = [0]], the single candidate
    [0] and [noise_norm = 0] the only solve raises, and the search returns no
    candidate. *)
Lemma find_optimal_epsilon_zero_raises :
  find_optimal_epsilon (Array2 (0 : 'M[R]_1)) (Array1 (0 : 'cV[R]_1)) [:: 0] 0
  = Raise LinAlgError.
Proof. by rewrite /find_optimal_epsilon /= lsqr_solution_zero. Qed.

(** C2, as amended: for every [N×M] matrix [G], vector [d] of length [N],
    non-empty list [epsilon_values] whose every candidate [ε] has an
    invertible [GᵗG + ε²I], and every [noise_norm], the search returns the
    candidate at an index [i] such that the score
    [|residual(d, G, solve(G, d, ε)) − noise_norm²|] at index [i] is at most
    the score at every index and strictly less than the score at every
    earlier index; the returned value is a member of [epsilon_values]. *)
Theorem find_optimal_epsilon_first_argmin (N M : nat) (G : 'M[R]_(N, M))
    (d : 'cV[R]_N) (epsilon_values : seq R) (noise_norm : R) :
  epsilon_values <> [::] ->
  (forall e, e \in epsilon_values -> normal_mx G e \in unitmx) ->
  exists (i : nat) (s_i : R),
    [/\ (i < size epsilon_values)%N,
        find_optimal_epsilon (Array2 G) (Array1 d) epsilon_values noise_norm
        = Ok (nth 0 epsilon_values i),
        nth 0 epsilon_values i \in epsilon_values,
        score (Array2 G) (Array1 d) noise_norm (nth 0 epsilon_values i)
        = Ok s_i
      & forall j, (j < size epsilon_values)%N ->
        exists s_j : R,
          [/\ score (Array2 G) (Array1 d) noise_norm (nth 0 epsilon_values j)
              = Ok s_j,
              s_i <= s_j
            & (j < i)%N -> s_i < s_j]].
Proof.
move=> eps_n0 unit_eps.
have [i [lt_i -> min_i first_i]] :=
  find_optimal_epsilon_ok d noise_norm eps_n0 unit_eps.
exists i, (score_value G d noise_norm (nth 0 epsilon_values i)).
split=> //; first exact: mem_nth.
  by rewrite scoreE unit_eps // mem_nth.
move=> j lt_j; exists (score_value G d noise_norm (nth 0 epsilon_values j)).
by split; [rewrite scoreE unit_eps // mem_nth | exact: min_i | exact: first_i].
Qed.

Lemma one_two_unit (e : R) :
  e \in one_two -> normal_mx (1%:M : 'M[R]_1) e \in unitmx.
Proof.
rewrite !inE => /orP[] /eqP->; apply: normal_mx_unit; first exact: oner_neq0.
by rewrite pnatr_eq0.
Qed.

Lemma find_optimal_epsilon_first_argmin_witness :
  exists (i : nat) (s_i : R),
    [/\ (i < size one_two)%N,
        find_optimal_epsilon (Array2 (1%:M : 'M[R]_1))
          (Array1 (1%:M : 'cV[R]_1)) one_two 0
        = Ok (nth 0 one_two i),
        nth 0 one_two i \in one_two,
        score (Array2 (1%:M : 'M[R]_1)) (Array1 (1%:M : 'cV[R]_1)) 0
          (nth 0 one_two i) = Ok s_i
      & forall j, (j < size one_two)%N ->
        exists s_j : R,
          [/\ score (Array2 (1%:M : 'M[R]_1)) (Array1 (1%:M : 'cV[R]_1)) 0
                (nth 0 one_two j) = Ok s_j,
              s_i <= s_j
            & (j < i)%N -> s_i < s_j]].
Proof.
apply: (@find_optimal_epsilon_first_argmin 1 1 1%:M 1%:M one_two 0) => //.
exact: one_two_unit.
Defined.

(** ** C3: the residual *)

(** C3: for every [d] of length [N], every [N×M] matrix [G] and every [m] of
    length [M], [residual(d, G, m)] returns the squared Euclidean norm of
    [d − G·m]; the result is not negative, and it is 0 exactly when
    [G·m = d]. *)
Theorem residual_sqnorm (N M : nat) (d : 'cV[R]_N) (G : 'M[R]_(N, M))
    (m : 'cV[R]_M) :
  exists r : R,
    [/\ residual (Array1 d) (Array2 G) (Array1 m) = Ok r,
        r = \sum_(i < N) (d i 0 - (G *m m) i 0) ^+ 2,
        0 <= r
      & r = 0 <-> G *m m = d].
Proof.
exists (sqnorm (d - G *m m)); split; first exact: residualE.
- by apply: eq_bigr => i _; rewrite !mxE.
- exact: sqnorm_ge0.
- split=> [/eqP|->]; last by rewrite subrr; apply/eqP; rewrite sqnorm_eq0.
  by rewrite sqnorm_eq0 subr_eq0 => /eqP.
Qed.

(** ** C4: the damped solution minimises the Tikhonov functional *)

(** C4: for every [G], [d] and [ε ≥ 0] such that [GᵗG + ε²I] is invertible,
    the vector [lsqr_solution(G, d, ε)] returns is the minimiser of
    [‖Gm − d‖² + ε²‖m‖²] over the vectors [m] of length [M]: the functional
    is nowhere smaller, and it takes that value nowhere else. *)
Theorem lsqr_solution_minimizes (N M : nat) (G : 'M[R]_(N, M))
    (d : 'cV[R]_N) (eps : R) :
  0 <= eps -> normal_mx G eps \in unitmx ->
  exists m_est : 'cV[R]_M,
    [/\ lsqr_solution (Array2 G) (Array1 d) eps = Ok (Array1 m_est),
        forall m, tikhonov G d eps m_est <= tikhonov G d eps m
      & forall m, tikhonov G d eps m = tikhonov G d eps m_est -> m = m_est].
Proof.
move=> _ unitA; exists (solution G d eps); split.
- by rewrite lsqr_solutionE unitA.
- by move=> m; exact: solution_min.
- by move=> m; exact: solution_min_uniq.
Qed.

Lemma lsqr_solution_minimizes_witness :
  exists m_est : 'cV[R]_1,
    [/\ lsqr_solution (Array2 (1%:M : 'M[R]_1)) (Array1 (1%:M : 'cV[R]_1)) 1
        = Ok (Array1 m_est),
        forall m, tikhonov (1%:M : 'M[R]_1) 1%:M 1 m_est
                  <= tikhonov (1%:M : 'M[R]_1) 1%:M 1 m
      & forall m, tikhonov (1%:M : 'M[R]_1) 1%:M 1 m
                  = tikhonov (1%:M : 'M[R]_1) 1%:M 1 m_est -> m = m_est].
Proof.
apply: (@lsqr_solution_minimizes 1 1 1%:M 1%:M 1 ler01).
exact: normal_mx_unit (oner_neq0 _).
Defined.

(** ** The binary64 reading of the solve

    The program computes with IEEE doubles, and whether [np.linalg.inv]
    raises is decided on the doubles: LAPACK's elimination with partial
    pivoting reports a singular matrix when it meets a pivot that is exactly
    zero, and then only.  [Binary64] embeds [lsqr_solution] a second time,
    on the kernel's binary64 numbers, to settle what the code does with a
    matrix that is singular as a matrix of real numbers.

    A 2-D array with at least one row is the list of its rows, all of one
    length; a product is rounded, then added to the sum so far (a build of
    BLAS that fuses the two, or sums in another order, differs in the last
    bits of the values, which no statement below mentions). *)

Module Binary64.

Definition vector : Type := seq float.
Definition matrix : Type := seq (seq float).

Definition nrows (A : matrix) : nat := size A.
Definition ncols (A : matrix) : nat := size (head [::] A).

Definition column (A : matrix) (j : nat) : vector :=
  [seq nth 0%float row j | row <- A].

(** [A.T] and [np.identity(n)] *)
Definition transpose (A : matrix) : matrix :=
  [seq column A j | j <- iota 0 (ncols A)].

Definition identity (n : nat) : matrix :=
  [seq [seq (if i == j then 1 else 0)%float | j <- iota 0 n] | i <- iota 0 n].

(** The inner product of two rows of numbers, summed from the left. *)
Definition inner (x y : vector) : float :=
  foldl (fun acc p => PrimFloat.add acc (PrimFloat.mul p.1 p.2)) 0%float
    (zip x y).

(** [np.dot(A, B)] for two 2-D arrays, and for a 2-D and a 1-D array. *)
Definition dot22 (A B : matrix) : res matrix :=
  if ncols A == nrows B then
    Ok [seq [seq inner row (column B j) | j <- iota 0 (ncols B)] | row <- A]
  else Raise ValueError.

Definition dot21 (A : matrix) (v : vector) : res vector :=
  if ncols A == size v then Ok [seq inner row v | row <- A]
  else Raise ValueError.

(** [x**2] for a Python float: [OverflowError] when the square of a finite
    number is not finite. *)
Definition square (x : float) : res float :=
  let y := PrimFloat.mul x x in
  if PrimFloat.is_infinity y && ~~ PrimFloat.is_infinity x
  then Raise OverflowError else Ok y.

(** [s * A] and [A + B] for arrays of one shape. *)
Definition scale2 (s : float) (A : matrix) : matrix :=
  [seq [seq PrimFloat.mul s a | a <- row] | row <- A].

Definition add22 (A B : matrix) : matrix :=
  [seq [seq PrimFloat.add p.1 p.2 | p <- zip rows.1 rows.2]
  | rows <- zip A B].

(** *** [np.linalg.inv]: LAPACK's [dgesv] on [A] and the identity

    A row of the system is a row of [A], from the column the elimination has
    reached, with the row of the right-hand side that goes with it. *)
Definition system : Type := seq (vector * vector).

(** The first row whose leading entry is largest in absolute value. *)
Fixpoint pivot_index (best : nat) (largest : float) (i : nat)
    (leading : seq float) : nat :=
  match leading with
  | [::] => best
  | a :: rest =>
      if PrimFloat.ltb largest (PrimFloat.abs a)
      then pivot_index i (PrimFloat.abs a) i.+1 rest
      else pivot_index best largest i.+1 rest
  end.

(** The least number whose reciprocal does not overflow ([dlamch('S')]). *)
Definition sfmin : float := 0x1p-1022%float.

(** [r - l * p], entry by entry. *)
Definition eliminate_row (l : float) (p r : vector) : vector :=
  [seq PrimFloat.sub q.1 (PrimFloat.mul l q.2) | q <- zip r p].

(** One column of the elimination for each of the [n] rows: the row of the
    pivot is exchanged with the first row, the multipliers are the leading
    entries times the reciprocal of the pivot, and a pivot that is exactly
    zero is a singular matrix. *)
Fixpoint eliminate (n : nat) (rows : system) : res system :=
  match n with
  | 0 => Ok [::]
  | n'.+1 =>
      let first := head ([::], [::]) rows in
      let leading := [seq head 0%float r.1 | r <- rows] in
      let p := pivot_index 0 (PrimFloat.abs (head 0%float leading)) 1
                 (behead leading) in
      let pivot_row := nth first rows p in
      let pivot := head 0%float pivot_row.1 in
      if PrimFloat.eqb pivot 0%float then Raise LinAlgError
      else
        let below := behead (set_nth first rows p first) in
        let multiplier (a : float) :=
          if PrimFloat.leb sfmin (PrimFloat.abs pivot)
          then PrimFloat.mul a (PrimFloat.div 1%float pivot)
          else PrimFloat.div a pivot in
        let reduce (r : vector * vector) :=
          let l := multiplier (head 0%float r.1) in
          (eliminate_row l (behead pivot_row.1) (behead r.1),
           eliminate_row l pivot_row.2 r.2) in
        rest <-- eliminate n' [seq reduce r | r <- below] ;;
        Ok (pivot_row :: rest)
  end.

(** Back substitution on the triangular system, from the last row up. *)
Fixpoint back_substitute (rows : system) : seq vector :=
  match rows with
  | [::] => [::]
  | (u, y) :: rows' =>
      let xs := back_substitute rows' in
      let rhs :=
        foldl (fun acc term => eliminate_row term.1 term.2 acc) y
          (zip (behead u) xs) in
      [seq PrimFloat.div b (head 0%float u) | b <- rhs] :: xs
  end.

Definition inv (A : matrix) : res matrix :=
  if nrows A == ncols A then
    rows <-- eliminate (nrows A) (zip A (identity (nrows A))) ;;
    Ok (back_substitute rows)
  else Raise LinAlgError.

(** [lsqr_solution(G, d, epsilon)], line by line as above. *)
Definition lsqr_solution (G : matrix) (d : vector) (epsilon : float)
  : res vector :=
  let M := ncols G in
  let I := identity M in
  GtG <-- dot22 (transpose G) G ;;
  eps2 <-- square epsilon ;;
  A_inv <-- inv (add22 GtG (scale2 eps2 I)) ;;
  A_inv_Gt <-- dot22 A_inv (transpose G) ;;
  dot21 A_inv_Gt d.

End Binary64.

(** ** C5: a failed inversion raises, and the search lets the error through *)




(** ** C6: the inputs are not validated *)




(** ** C7: without damping, ordinary least squares *)

(** C7: for every [N×M] matrix [G] with [N > M] and full column rank, and
    every [d], the matrix [GᵗG] is invertible and [lsqr_solution(G, d, 0)]
    returns the closed form [(GᵗG)⁻¹Gᵗd] of ordinary least squares. *)
Theorem zero_damping_is_ols (N M : nat) (G : 'M[R]_(N, M)) (d : 'cV[R]_N) :
  (M < N)%N -> \rank G = M ->
  G^T *m G \in unitmx
  /\ lsqr_solution (Array2 G) (Array1 d) 0 = Ok (Array1 (ols_closed_form G d)).
Proof.
move=> _ /normal_mx0_unit; rewrite lsqr_solutionE /ols_closed_form.
by rewrite /normal_mx expr0n /= scale0r addr0 => ->.
Qed.

Lemma rank_ones_21 : \rank ones_21 = 1%N.
Proof.
apply/eqP; rewrite eqn_leq rank_leq_col lt0n mxrank_eq0.
apply/eqP => /matrixP/(_ 0 0); rewrite !mxE => /eqP.
by rewrite oner_eq0.
Qed.

Lemma zero_damping_is_ols_witness :
  ones_21^T *m ones_21 \in unitmx
  /\ lsqr_solution (Array2 ones_21) (Array1 ones_2) 0
     = Ok (Array1 (ols_closed_form ones_21 ones_2)).
Proof.
exact: (@zero_damping_is_ols 2 1 ones_21 ones_2 isT rank_ones_21).
Defined.

(** ** C8: more damping, shorter solution *)

(** C8: for fixed [G] and [d] and all [0 ≤ ε₁ ≤ ε₂] for which both solves
    return, the Euclidean norm of [lsqr_solution(G, d, ε₂)] is at most that
    of [lsqr_solution(G, d, ε₁)]. *)
Theorem lsqr_solution_norm_antitone (N M : nat) (G : 'M[R]_(N, M))
    (d : 'cV[R]_N) (eps1 eps2 : R) (m1 m2 : ndarray1) :
  0 <= eps1 -> eps1 <= eps2 ->
  lsqr_solution (Array2 G) (Array1 d) eps1 = Ok m1 ->
  lsqr_solution (Array2 G) (Array1 d) eps2 = Ok m2 ->
  norm m2 <= norm m1.
Proof.
move=> eps1_ge0 le_eps; rewrite !lsqr_solutionE.
case: ifP => // unit1 [<-]; case: ifP => // unit2 [<-].
by rewrite !normE sqrt_le ?sqnorm_ge0 // solution_shrinks.
Qed.

Lemma lsqr_solution_norm_antitone_witness :
  norm (Array1 (solution (1%:M : 'M[R]_1) 1%:M 1))
  <= norm (Array1 (solution (1%:M : 'M[R]_1) 1%:M 0)).
Proof.
apply: (@lsqr_solution_norm_antitone 1 1 1%:M 1%:M 0 1) => //.
- by rewrite lsqr_solutionE normal_mx0_unit // mxrank1.
- by rewrite lsqr_solutionE normal_mx_unit // oner_neq0.
Defined.

(** ** C9 and C10: only the squares of the damping and of the noise norm
    enter *)

(** C9: for every [G], [d] and [ε], of any sign and any shape,
    [lsqr_solution(G, d, −ε)] and [lsqr_solution(G, d, ε)] are the same
    result, be it a vector or an exception; and a negative [ε] is accepted:
    the solve then returns a vector. *)
Theorem lsqr_solution_even :
  (forall (G : ndarray2) (d : ndarray1) (eps : R),
     lsqr_solution G d (- eps) = lsqr_solution G d eps)
  /\ (forall (N M : nat) (G : 'M[R]_(N, M)) (d : 'cV[R]_N) (eps : R),
        eps < 0 ->
        exists m_est, lsqr_solution (Array2 G) (Array1 d) eps = Ok m_est).
Proof.
split=> [G d eps|N M G d eps eps_lt0]; first by rewrite /lsqr_solution sqrrN.
have eps_n0 : eps != 0 by rewrite lt_eqF.
by rewrite lsqr_solutionE (normal_mx_unit _ eps_n0); eexists.
Qed.

Lemma lsqr_solution_even_witness :
  lsqr_solution (Array2 (1%:M : 'M[R]_1)) (Array1 (1%:M : 'cV[R]_1)) (- 1)
  = lsqr_solution (Array2 (1%:M : 'M[R]_1)) (Array1 (1%:M : 'cV[R]_1)) 1
  /\ exists m_est,
       lsqr_solution (Array2 (1%:M : 'M[R]_1)) (Array1 (1%:M : 'cV[R]_1))
         (- 1) = Ok m_est.
Proof.
have [even neg_ok] := lsqr_solution_even.
split; first exact: even.
by apply: neg_ok; rewrite oppr_lt0 ltr01.
Defined.

(** C10: for every [G], [d], [epsilon_values] and [noise_norm], of any sign,
    [find_optimal_epsilon] returns the same result for [−noise_norm] as for
    [noise_norm], be it a candidate or an exception; and a negative
    [noise_norm] is accepted: the search then returns a candidate, provided
    the list is not empty and every solve returns. *)
Theorem find_optimal_epsilon_even :
  (forall (G : ndarray2) (d : ndarray1) (epsilon_values : seq R)
          (noise_norm : R),
     find_optimal_epsilon G d epsilon_values (- noise_norm)
     = find_optimal_epsilon G d epsilon_values noise_norm)
  /\ (forall (N M : nat) (G : 'M[R]_(N, M)) (d : 'cV[R]_N)
             (epsilon_values : seq R) (noise_norm : R),
        noise_norm < 0 -> epsilon_values <> [::] ->
        (forall e, e \in epsilon_values -> normal_mx G e \in unitmx) ->
        exists e, find_optimal_epsilon (Array2 G) (Array1 d) epsilon_values
                    noise_norm = Ok e).
Proof.
split=> [G d epsilon_values nn|N M G d epsilon_values nn _ eps_n0 unit_eps].
  rewrite /find_optimal_epsilon; congr (bind _ _).
  elim: epsilon_values [::] => [|e todo IH] acc //=.
  case: (lsqr_solution G d e) => //= m_est.
  by case: (residual d G m_est) => //= r; rewrite sqrrN IH.
have [i [_ -> _ _]] := find_optimal_epsilon_ok d nn eps_n0 unit_eps.
by eexists.
Qed.

Lemma find_optimal_epsilon_even_witness :
  find_optimal_epsilon (Array2 (1%:M : 'M[R]_1)) (Array1 (1%:M : 'cV[R]_1))
    one_two (- 1)
  = find_optimal_epsilon (Array2 (1%:M : 'M[R]_1)) (Array1 (1%:M : 'cV[R]_1))
      one_two 1
  /\ exists e,
       find_optimal_epsilon (Array2 (1%:M : 'M[R]_1))
         (Array1 (1%:M : 'cV[R]_1)) one_two (- 1) = Ok e.
Proof.
have [even neg_ok] := find_optimal_epsilon_even.
split; first exact: even.
apply: neg_ok => //; first by rewrite oppr_lt0 ltr01.
exact: one_two_unit.
Defined.

(** * Further properties of the code *)

(** ** The residual and the norm along the damping

    Properties of [lsqr_solution] and [residual] taken together. *)

Lemma sqnormN (n : nat) (x : 'cV[R]_n) : sqnorm (- x) = sqnorm x.
Proof. by rewrite !sqnormE dotvNl dotvNr opprK. Qed.

Lemma tikhonovE (N M : nat) (G : 'M[R]_(N, M)) (d : 'cV[R]_N) (eps : R)
    (m : 'cV[R]_M) :
  tikhonov G d eps m = sqnorm (d - G *m m) + eps ^+ 2 * sqnorm m.
Proof. by rewrite /tikhonov -sqnormN opprB. Qed.

Lemma Ok_Array1_inj (n : nat) (u v : 'cV[R]_n) :
  Ok (Array1 u) = Ok (Array1 v) -> u = v.
Proof.
move=> eq_uv; apply/colP => i.
have := congr1 (fun r => if r is Ok w then get1 w i else 0) eq_uv.
by rewrite !get1E.
Qed.

(** The returned vector solves the normal equations: the misfit [d − G·m],
    taken back through [Gᵗ], is [ε²] times the returned vector; without
    damping the misfit is orthogonal to every column of [G]. *)
Theorem lsqr_solution_normal_equations (N M : nat) (G : 'M[R]_(N, M))
    (d : 'cV[R]_N) (eps : R) (m_est : 'cV[R]_M) :
  lsqr_solution (Array2 G) (Array1 d) eps = Ok (Array1 m_est) ->
  G^T *m (d - G *m m_est) = eps ^+ 2 *: m_est
  /\ (eps = 0 -> forall j : 'I_M, dotv (col j G) (d - G *m m_est) = 0).
Proof.
rewrite lsqr_solutionE; case: ifP => // unitA /Ok_Array1_inj/esym eq_sol.
rewrite -/(solution G d eps) in eq_sol.
have eqn := solution_eqn d unitA; rewrite -eq_sol normal_mx_mul in eqn.
have orth : G^T *m (d - G *m m_est) = eps ^+ 2 *: m_est.
  by rewrite mulmxBr -eqn addrAC subrr add0r.
split=> // eps0 j; move/colP/(_ j): orth.
rewrite eps0 expr0n /= scale0r !mxE => <-.
by apply: eq_bigr => i _; rewrite !mxE.
Qed.

Lemma lsqr_solution_normal_equations_witness :
  (1%:M : 'M[R]_1)^T *m (1%:M - 1%:M *m solution (1%:M : 'M[R]_1) 1%:M 1)
  = 1 ^+ 2 *: solution (1%:M : 'M[R]_1) 1%:M 1
  /\ (1 = 0 :> R ->
      forall j : 'I_1,
        dotv (col j (1%:M : 'M[R]_1))
          (1%:M - 1%:M *m solution (1%:M : 'M[R]_1) 1%:M 1) = 0).
Proof.
apply: (@lsqr_solution_normal_equations 1 1 1%:M 1%:M 1).
by rewrite lsqr_solutionE normal_mx_unit // oner_neq0.
Defined.

Lemma lsqr_solution_inv (N M : nat) (G : 'M[R]_(N, M)) (d : 'cV[R]_N)
    (eps : R) (m_est : ndarray1) :
  lsqr_solution (Array2 G) (Array1 d) eps = Ok m_est ->
  normal_mx G eps \in unitmx /\ m_est = Array1 (solution G d eps).
Proof. by rewrite lsqr_solutionE; case: ifP => // _ [<-]. Qed.

(** More damping never improves the fit: for [0 ≤ ε₁ ≤ ε₂] the residual of
    the solution at [ε₂] is at least the residual of the solution at [ε₁]. *)
Theorem residual_nondecreasing (N M : nat) (G : 'M[R]_(N, M))
    (d : 'cV[R]_N) (eps1 eps2 : R) (m1 m2 : ndarray1) (r1 r2 : R) :
  0 <= eps1 -> eps1 <= eps2 ->
  lsqr_solution (Array2 G) (Array1 d) eps1 = Ok m1 ->
  lsqr_solution (Array2 G) (Array1 d) eps2 = Ok m2 ->
  residual (Array1 d) (Array2 G) m1 = Ok r1 ->
  residual (Array1 d) (Array2 G) m2 = Ok r2 ->
  r1 <= r2.
Proof.
move=> eps1_ge0 le_eps /lsqr_solution_inv[unit1 ->] /lsqr_solution_inv[unit2 ->].
rewrite !residualE => -[<-] [<-].
have := solution_min d (solution G d eps2) unit1.
have := solution_shrinks d unit1 unit2 eps1_ge0 le_eps.
rewrite !tikhonovE.
set n1 := sqnorm (solution G d eps1); set n2 := sqnorm (solution G d eps2).
set a := sqnorm (d - _); set b := sqnorm (d - _).
by move: (sqr_ge0 eps1); set s := eps1 ^+ 2; nra.
Qed.

Lemma residual_nondecreasing_witness :
  sqnorm (1%:M - (1%:M : 'M[R]_1) *m solution (1%:M : 'M[R]_1) 1%:M 0)
  <= sqnorm (1%:M - (1%:M : 'M[R]_1) *m solution (1%:M : 'M[R]_1) 1%:M 1).
Proof.
apply: (@residual_nondecreasing 1 1 1%:M 1%:M 0 1
          (Array1 (solution (1%:M : 'M[R]_1) 1%:M 0))
          (Array1 (solution (1%:M : 'M[R]_1) 1%:M 1))) => //.
- by rewrite lsqr_solutionE normal_mx0_unit // mxrank1.
- by rewrite lsqr_solutionE normal_mx_unit // oner_neq0.
- exact: residualE.
- exact: residualE.
Defined.

(** The solution is never worse than the zero vector: the residual of the
    returned vector plus [ε²] times its squared norm is at most the squared
    norm of [d]; so neither the residual nor [ε²‖m‖²] exceeds [‖d‖²]. *)
Theorem lsqr_solution_energy_bound (N M : nat) (G : 'M[R]_(N, M))
    (d : 'cV[R]_N) (eps : R) (m_est : ndarray1) (r : R) :
  lsqr_solution (Array2 G) (Array1 d) eps = Ok m_est ->
  residual (Array1 d) (Array2 G) m_est = Ok r ->
  [/\ r + eps ^+ 2 * norm m_est ^+ 2 <= norm (Array1 d) ^+ 2,
      r <= norm (Array1 d) ^+ 2
    & eps ^+ 2 * norm m_est ^+ 2 <= norm (Array1 d) ^+ 2].
Proof.
move=> /lsqr_solution_inv[unitA ->]; rewrite residualE !sqr_norm => -[<-].
have := solution_min d 0 unitA; rewrite !tikhonovE mulmx0 subr0.
have -> : sqnorm (0 : 'cV[R]_M) = 0 by apply/eqP; rewrite sqnorm_eq0.
rewrite mulr0 addr0 => bound.
have r_ge0 := sqnorm_ge0 (d - G *m solution G d eps).
have n_ge0 : 0 <= eps ^+ 2 * sqnorm (solution G d eps).
  by rewrite mulr_ge0 ?sqr_ge0 ?sqnorm_ge0.
split=> //.
- by apply: le_trans bound; rewrite lerDl.
- by apply: le_trans bound; rewrite lerDr.
Qed.

Lemma lsqr_solution_energy_bound_witness :
  [/\ sqnorm (1%:M - (1%:M : 'M[R]_1) *m solution (1%:M : 'M[R]_1) 1%:M 1)
      + 1 ^+ 2 * norm (Array1 (solution (1%:M : 'M[R]_1) 1%:M 1)) ^+ 2
      <= norm (Array1 (1%:M : 'cV[R]_1)) ^+ 2,
      sqnorm (1%:M - (1%:M : 'M[R]_1) *m solution (1%:M : 'M[R]_1) 1%:M 1)
      <= norm (Array1 (1%:M : 'cV[R]_1)) ^+ 2
    & 1 ^+ 2 * norm (Array1 (solution (1%:M : 'M[R]_1) 1%:M 1)) ^+ 2
      <= norm (Array1 (1%:M : 'cV[R]_1)) ^+ 2].
Proof.
apply: (@lsqr_solution_energy_bound 1 1 1%:M 1%:M 1); last exact: residualE.
by rewrite lsqr_solutionE normal_mx_unit // oner_neq0.
Defined.

(** Superposition: with the same [G] and [ε], the solution for the data
    [a·d₁ + d₂] is [a] times the solution for [d₁] plus the solution for
    [d₂]. *)
Theorem lsqr_solution_linear (N M : nat) (G : 'M[R]_(N, M))
    (d1 d2 : 'cV[R]_N) (eps a : R) (m1 m2 : 'cV[R]_M) :
  lsqr_solution (Array2 G) (Array1 d1) eps = Ok (Array1 m1) ->
  lsqr_solution (Array2 G) (Array1 d2) eps = Ok (Array1 m2) ->
  lsqr_solution (Array2 G) (Array1 (a *: d1 + d2)) eps
  = Ok (Array1 (a *: m1 + m2)).
Proof.
rewrite !lsqr_solutionE; case: ifP => // unitA.
move=> /Ok_Array1_inj <- /Ok_Array1_inj <-.
by rewrite mulmxDr -scalemxAr.
Qed.

Lemma lsqr_solution_linear_witness :
  lsqr_solution (Array2 (1%:M : 'M[R]_1))
    (Array1 (2 *: (1%:M : 'cV[R]_1) + 1%:M)) 1
  = Ok (Array1 (2 *: solution (1%:M : 'M[R]_1) 1%:M 1
                + solution (1%:M : 'M[R]_1) 1%:M 1)).
Proof.
have solve1 :
  lsqr_solution (Array2 (1%:M : 'M[R]_1)) (Array1 (1%:M : 'cV[R]_1)) 1
  = Ok (Array1 (solution (1%:M : 'M[R]_1) 1%:M 1)).
  by rewrite lsqr_solutionE normal_mx_unit // oner_neq0.
exact: (lsqr_solution_linear 2 solve1 solve1).
Defined.

(** ** Arrays of any shape *)





(** [residual] rejects only shapes that numpy cannot broadcast: it raises
    [ValueError] exactly when [m] has not one entry per column of [G], or
    when the length of [d] is neither the row count of [G] nor 1 while [G]
    has not exactly one row.  A [d] of length 1 is not rejected: its entry
    is subtracted from every entry of [G·m]. *)
Theorem residual_shapes (N M : nat) (G : 'M[R]_(N, M)) :
  (forall d m : ndarray1,
     residual d (Array2 G) m = Raise ValueError
     <-> ~~ [&& len m == M
             & [|| len d == N, len d == 1%N | N == 1%N]])
  /\ (forall (d0 : 'cV[R]_1) (m : 'cV[R]_M),
        residual (Array1 d0) (Array2 G) (Array1 m)
        = Ok (\sum_(i < N) (d0 0 0 - (G *m m) i 0) ^+ 2)).
Proof.
split=> [d m|d0 m].
  rewrite /residual /dot21 /= eq_sym; case: eqP => _ //=.
  rewrite /sub11 /broadcast_dim /=.
  by case: eqP => _ //=; case: eqP => _ //=; case: eqP => _ /=.
move: G m; have [->|N1] := eqVneq N 1%N => G m.
  rewrite residualE; congr Ok; apply: eq_bigr => i _.
  by rewrite !mxE !ord1.
rewrite /residual dot21E /= /sub11 /broadcast_dim /= eq_sym (negPf N1) /=.
rewrite /norm /= sqr_sqrt; first by apply: sumr_ge0 => i _; exact: sqr_ge0.
congr Ok; apply: eq_bigr => i _; rewrite mxE /broadcast_idx /=.
have -> : get1 (Array1 d0) 0 = d0 0 0 by exact: (get1E d0 ord0).
by rewrite (negPf N1) get1E.
Qed.

(** * The plotting helpers ([DEPENDENCIES/e3_dependencies.py],
      [DEPENDENCIES/e2_dependencies.py])

    The helpers compute with Python numbers and numpy arrays and draw on a
    matplotlib axes.  A 1-D array or list of numbers is a [seq R] here; a
    Python exception is a [pyexn], and a call either returns or throws. *)

Inductive pyexn : Type :=
  | ZeroDivisionError
  | TypeError
  | PyValueError
  | PyIndexError
  | UnboundLocalError
  | AttributeError.

Inductive outcome (T : Type) : Type :=
  | Return of T
  | Throw of pyexn.

Arguments Return {T} _.
Arguments Throw {T} _.

Definition and_then {T U : Type} (x : outcome T) (f : T -> outcome U)
  : outcome U :=
  match x with
  | Return v => f v
  | Throw e => Throw e
  end.

Notation "x <~ e ;; k" := (and_then e (fun x => k))
  (at level 200, e at level 100, k at level 200, right associativity,
   format "'[v' x  <~  e  ;;  '/' k ']'").

(** [x / y] on Python numbers. *)
Definition true_div (x y : R) : outcome R :=
  if y == 0 then Throw ZeroDivisionError else Return (x / y).

(** [x ** -2] on a Python number. *)
Definition pow_minus2 (x : R) : outcome R :=
  if x == 0 then Throw ZeroDivisionError else Return (x ^- 2).

(** [s[1:-1]] *)
Definition strip_ends (s : seq R) : seq R := behead (take (size s).-1 s).

(** [np.linspace(start, stop, num)], end point included: [num] samples
    [k * step + start] with [step = (stop - start) / (num - 1)], the last one
    then overwritten with [stop]; a single sample is [start]; a negative
    [num] is a [ValueError]. *)
Definition linspace (start stop : R) (num : int) : outcome (seq R) :=
  if num < 0 then Throw PyValueError
  else
    let n := `|num|%N in
    let div := n.-1 in
    let delta := stop - start in
    let y :=
      [seq (if (0 < div)%N then k%:R * (delta / div%:R) else k%:R * delta)
           + start | k <- iota 0 n] in
    Return (if (1 < n)%N then rcons (take (size y).-1 y) stop else y).

(** [s[i]] for a list or array and an index that is not negative. *)
Definition item (T : Type) (s : seq T) (i : nat) : outcome T :=
  match drop i s with
  | x :: _ => Return x
  | [::] => Throw PyIndexError
  end.

(** What a helper does to the world is the list of its drawing calls on the
    axes and of the lines it prints, in order.  A keyword argument that is
    the same constant in every call of a helper (line width, head width,
    clipping) is not recorded.  [Viridis vmin vmax v] is the colour
    [cmap(norm(v))] for the colour map [viridis] and the normalisation
    [Normalize(vmin, vmax)]. *)
Inductive paint : Type :=
  | Named of String.string
  | Viridis of R & R & R.

Inductive event : Type :=
  | Arrow (x y dx dy : R) (color : String.string)
  | Patch (x y width height : R) (facecolor : paint)
      (edgecolor label : option String.string)
  | Line (xs ys : seq R) (color linestyle label : String.string)
  | Printed (text : String.string).

Definition axes : Type := seq event.

Module e3_dependencies.

(** [parabola(x_values, a, b, s)], on an array of abscissae. *)
Definition parabola (x_values : seq R) (a b s : R) : seq R :=
  [seq (a * x ^+ 2 + b * x) * s | x <- x_values].

(** [valley_parabola(n_model, x0, xn, r_std)]: the tuple
    [(m0, m0_x, m0_std, x_width)]. *)
Definition valley_parabola (n_model : int) (x0 xn r_std : R)
  : outcome (seq R * seq R * seq R * R) :=
  x_width <~ true_div (xn - x0) n_model%:~R ;;
  x_values <~ linspace (x0 - 2^-1 * x_width) (xn + 2^-1 * x_width)
                (n_model + 2) ;;
  j <~ true_div (xn - x0) 2 ;;
  a <~ pow_minus2 j ;;
  b <~ true_div (- 2) j ;;
  let s := - 900 in
  let y_values := parabola [seq x - x0 | x <- x_values] a b s in
  let m0 := strip_ends y_values in
  let m0_x := strip_ends x_values in
  let m0_std := [seq y * r_std | y <- m0] in
  Return (m0, m0_x, m0_std, x_width).

(** [generate_column_outline(midpoints_x, midpoints_y, width)]: the loop
    over [zip(midpoints_x, midpoints_y)] appends two points per column. *)
Fixpoint outline_loop (half_width : R) (xs ys : seq R)
    (x_values y_values : seq R) : seq R * seq R :=
  match xs, ys with
  | x :: xs', y :: ys' =>
      outline_loop half_width xs' ys'
        (rcons (rcons x_values (x - half_width)) (x + half_width))
        (rcons (rcons y_values y) y)
  | _, _ => (x_values, y_values)
  end.

Definition generate_column_outline (midpoints_x midpoints_y : seq R)
    (width : R) : outcome (seq R * seq R) :=
  let half_width := width / 2 in
  match midpoints_x with
  | [::] => Throw PyIndexError
  | x_first :: _ =>
      let x_values := [:: x_first - half_width] in
      let y_values := [:: 0] in
      let: (x_values, y_values) :=
        outline_loop half_width midpoints_x midpoints_y x_values y_values in
      let x_values := rcons x_values (last x_first midpoints_x + half_width) in
      let y_values := rcons y_values 0 in
      Return (x_values, y_values)
  end.


Lemma strip_ends_rcons (x last_x : R) (s : seq R) :
  strip_ends (rcons (x :: s) last_x) = s.
Proof. by rewrite /strip_ends size_rcons /= -cats1 take_size_cat. Qed.

(** [np.linspace] with at least two samples: an arithmetic progression from
    [start] whose last term is [stop]. *)
Lemma linspace_ge2 (start stop : R) (n : nat) :
  linspace start stop (Posz n.+2)
  = Return (rcons [seq k%:R * ((stop - start) / n.+1%:R) + start
                  | k <- iota 0 n.+1] stop).
Proof.
have take_iota_map (f : nat -> R) (k : nat) :
    take (size [seq f i | i <- iota 0 k.+1]).-1 [seq f i | i <- iota 0 k.+1]
    = [seq f i | i <- iota 0 k].
  by rewrite size_map size_iota -map_take take_iota /= (minn_idPl (leqnSn k)).
rewrite /linspace; have -> : (Posz n.+2 < 0) = false by [].
cbv zeta; rewrite !absz_nat [n.+2.-1]/= [(0 < n.+1)%N]/= [(1 < n.+2)%N]/=.
by rewrite take_iota_map.
Qed.

Section Valley.

Variables (n : nat) (x0 xn r_std : R).
Hypotheses (n_gt0 : (0 < n)%N) (xn_x0 : xn != x0).

Let w : R := (xn - x0) / n%:R.

Lemma valley_n_neq0 : n%:R != 0 :> R.
Proof. by rewrite pnatr_eq0 -lt0n. Qed.

Lemma valley_parabolaE :
  valley_parabola n x0 xn r_std
  = Return
      ([seq 900 * (1 - ((2 * k + 1)%:R / n%:R - 1) ^+ 2) | k <- iota 0 n],
       [seq x0 + (k%:R + 2^-1) * w | k <- iota 0 n],
       [seq 900 * (1 - ((2 * k + 1)%:R / n%:R - 1) ^+ 2) * r_std
       | k <- iota 0 n],
       w).
Proof.
have n0 := valley_n_neq0.
have d0 : xn - x0 != 0 by rewrite subr_eq0.
rewrite /valley_parabola /true_div -!pmulrn (negPf n0) /and_then -/w.
have -> : Posz n + 2 = Posz n.+2 by rewrite -[n.+2]addn2 PoszD.
rewrite linspace_ge2 pnatr_eq0 /= /pow_minus2 !mulf_eq0 !invr_eq0 (negPf d0).
rewrite pnatr_eq0 /= mul0r add0r /parabola !map_rcons /=.
rewrite !strip_ends_rcons -!map_comp.
have n1 : 1 + n%:R != 0 :> R by rewrite addrC natr1 pnatr_eq0.
have step : (xn + 2^-1 * w - (x0 - 2^-1 * w)) / n.+1%:R = w.
  by rewrite /w -natr1; field?; rewrite ?n0 ?n1.
have -> : iota 1 n = [seq (1 + i)%N | i <- iota 0 n] by exact: (iotaDl 1 0 n).
rewrite step -!map_comp.
congr (Return (_, _, _, _)).
- by apply: eq_map => k /=; rewrite /w; field?; rewrite ?n0 ?d0.
- by apply: eq_map => k /=; field.
- by apply: eq_map => k /=; rewrite /w; field?; rewrite ?n0 ?d0.
Qed.

Lemma valley_width : w * n%:R = xn - x0.
Proof. by rewrite divfK // valley_n_neq0. Qed.

(** The [k]-th abscissa is the middle of the [k]-th column. *)
Lemma valley_mid (k : nat) :
  (k < n)%N ->
  let x := nth 0 [seq x0 + (k%:R + 2^-1) * w | k <- iota 0 n] k in
  x - w / 2 = x0 + k%:R * w /\ x + w / 2 = x0 + k.+1%:R * w.
Proof.
move=> lt_k x; rewrite /x (nth_map 0%N) ?size_iota // nth_iota // add0n.
by rewrite -natr1; split; field.
Qed.

Lemma valley_depth_nth (k : nat) :
  (k < n)%N ->
  nth 0 [seq 900 * (1 - ((2 * k + 1)%:R / n%:R - 1) ^+ 2) | k <- iota 0 n] k
  = 900 * (1 - ((2 * k + 1)%:R / n%:R - 1) ^+ 2) :> R.
Proof. by move=> lt_k; rewrite (nth_map 0%N) ?size_iota // nth_iota. Qed.

(** Every depth is positive and at most 900. *)
Lemma valley_depth_range (k : nat) :
  (k < n)%N ->
  0 < nth (0 : R) [seq 900 * (1 - ((2 * k + 1)%:R / n%:R - 1) ^+ 2)
                  | k <- iota 0 n] k <= 900.
Proof.
move=> lt_k; rewrite valley_depth_nth //.
set q : R := (2 * k + 1)%:R / n%:R.
have n_pos : 0 < n%:R :> R by rewrite ltr0n.
have q_gt0 : 0 < q by rewrite /q divr_gt0 // ltr0n addn1.
have q_lt2 : q < 2.
  by rewrite /q ltr_pdivrMr // -natrM ltr_nat addn1 !mul2n ltn_Sdouble.
have prod_gt0 : 0 < q * (2 - q) by rewrite mulr_gt0 // subr_gt0.
have sq_ge0 : 0 <= (q - 1) ^+ 2 by exact: sqr_ge0.
by apply/andP; split; move: prod_gt0 sq_ge0; set v := q; nra.
Qed.

End Valley.

(** [valley_parabola] lays [n_model] columns of equal width side by side
    over [[x0, xn]]: the three arrays have [n_model] entries, the widths add
    up to [xn - x0], the [k]-th abscissa is the middle of the [k]-th column
    [[x0 + k·w, x0 + (k+1)·w]], and the standard deviations are the depths
    times [r_std]. *)
Theorem valley_parabola_columns (n : nat) (x0 xn r_std : R) :
  (0 < n)%N -> xn != x0 ->
  exists (m0 m0_x m0_std : seq R) (w : R),
    [/\ valley_parabola n x0 xn r_std = Return (m0, m0_x, m0_std, w),
        [/\ size m0 = n, size m0_x = n & size m0_std = n],
        w * n%:R = xn - x0,
        forall k, (k < n)%N ->
          nth 0 m0_x k - w / 2 = x0 + k%:R * w
          /\ nth 0 m0_x k + w / 2 = x0 + k.+1%:R * w
      & forall k, (k < n)%N -> nth 0 m0_std k = nth 0 m0 k * r_std].
Proof.
move=> n_gt0 xn_x0; rewrite (valley_parabolaE r_std n_gt0 xn_x0).
do 4![eexists]; split; first by [].
- by rewrite !size_map !size_iota.
- exact: (@valley_width n x0 xn n_gt0).
- by move=> k lt_k; apply: (@valley_mid n x0 xn k lt_k).
- by move=> k lt_k; rewrite !(nth_map 0%N) ?size_iota.
Qed.

Lemma valley_parabola_columns_witness :
  exists (m0 m0_x m0_std : seq R) (w : R),
    [/\ valley_parabola 2%N 0 1 (4^-1) = Return (m0, m0_x, m0_std, w),
        [/\ size m0 = 2%N, size m0_x = 2%N & size m0_std = 2%N],
        w * 2%:R = 1 - 0,
        forall k, (k < 2)%N ->
          nth 0 m0_x k - w / 2 = 0 + k%:R * w
          /\ nth 0 m0_x k + w / 2 = 0 + k.+1%:R * w
      & forall k, (k < 2)%N -> nth 0 m0_std k = nth 0 m0 k * 4^-1].
Proof.
by apply: (@valley_parabola_columns 2 0 1 (4^-1)); rewrite ?oner_neq0.
Defined.

(** The depths [m0] follow the parabola that is 0 at [x0] and at [xn] and
    900 half-way: at every column middle the depth is
    [900·(1 − ((x − c)/h)²)] with [c] the middle of [[x0, xn]] and [h] half
    its length; so every depth is positive and at most 900, and the profile
    is symmetric: column [k] and column [n_model − 1 − k] have the same
    depth. *)
Theorem valley_parabola_depths (n : nat) (x0 xn r_std : R) :
  (0 < n)%N -> xn != x0 ->
  exists (m0 m0_x m0_std : seq R) (w : R),
    [/\ valley_parabola n x0 xn r_std = Return (m0, m0_x, m0_std, w),
        forall k, (k < n)%N ->
          nth 0 m0 k
          = 900 * (1 - ((nth 0 m0_x k - (x0 + xn) / 2) / ((xn - x0) / 2)) ^+ 2),
        forall k, (k < n)%N -> 0 < nth 0 m0 k <= 900
      & forall k, (k < n)%N -> nth 0 m0 (n - k.+1) = nth 0 m0 k].
Proof.
move=> n_gt0 xn_x0; rewrite (valley_parabolaE r_std n_gt0 xn_x0).
have n0 := valley_n_neq0 n_gt0; have d0 : xn - x0 != 0 by rewrite subr_eq0.
have depth k := @valley_depth_nth n k.
do 4![eexists]; split; first by [].
- move=> k lt_k; rewrite depth // (nth_map 0%N) ?size_iota // nth_iota //.
  by rewrite add0n natrD natrM; field?; rewrite ?n0 ?d0.
- by move=> k lt_k; apply: (@valley_depth_range n n_gt0 k lt_k).
- move=> k lt_k.
  have lt_rev : (n - k.+1 < n)%N by rewrite -subSn // subSS leq_subr.
  rewrite !depth //; congr (900 * (1 - _)); rewrite -[RHS]sqrrN.
  congr (_ ^+ 2); rewrite opprB.
  rewrite (natrD _ (2 * (n - k.+1)) 1) (natrM _ 2 (n - k.+1)) natrB //.
  by rewrite -(natr1 k); field?; rewrite ?n0.
Qed.

Lemma valley_parabola_depths_witness :
  exists (m0 m0_x m0_std : seq R) (w : R),
    [/\ valley_parabola 2%N 0 1 (4^-1) = Return (m0, m0_x, m0_std, w),
        forall k, (k < 2)%N ->
          nth 0 m0 k
          = 900 * (1 - ((nth 0 m0_x k - (0 + 1) / 2) / ((1 - 0) / 2)) ^+ 2),
        forall k, (k < 2)%N -> 0 < nth 0 m0 k <= 900
      & forall k, (k < 2)%N -> nth 0 m0 (2 - k.+1) = nth 0 m0 k].
Proof.
by apply: (@valley_parabola_depths 2 0 1 (4^-1)); rewrite ?oner_neq0.
Defined.

Lemma linspace_neg (start stop : R) (num : int) :
  num < 0 -> linspace start stop num = Throw PyValueError.
Proof. by rewrite /linspace => ->. Qed.

Lemma linspace_nonneg (start stop : R) (num : int) :
  0 <= num -> exists y, linspace start stop num = Return y.
Proof. by rewrite /linspace leNgt => /negPf->; eexists. Qed.

(** The calls that fail, for Python numbers as arguments: [n_model = 0]
    throws [ZeroDivisionError] at the column width, [n_model < -2] throws the
    [ValueError] of [np.linspace], and otherwise [xn = x0] throws
    [ZeroDivisionError] at [j**-2]; with [n_model] equal to [-1] or [-2] and
    [xn ≠ x0] the call returns three empty arrays. *)
Theorem valley_parabola_edge_cases (x0 xn r_std : R) :
  [/\ valley_parabola 0 x0 xn r_std = Throw ZeroDivisionError,
      forall n_model : int,
        n_model < - 2 ->
        valley_parabola n_model x0 xn r_std = Throw PyValueError,
      forall n_model : int,
        n_model != 0 -> - 2 <= n_model ->
        valley_parabola n_model x0 x0 r_std = Throw ZeroDivisionError
    & xn != x0 ->
      valley_parabola (- 1) x0 xn r_std
      = Return ([::], [::], [::], x0 - xn)
      /\ valley_parabola (- 2) x0 xn r_std
         = Return ([::], [::], [::], (x0 - xn) / 2)].
Proof.
split.
- by rewrite /valley_parabola /true_div eqxx.
- move=> n_model lt_m2; rewrite /valley_parabola /true_div intr_eq0.
  have /negPf-> /= : n_model != 0 by rewrite lt_eqF // (lt_trans lt_m2).
  by rewrite linspace_neg // -ltrBrDr sub0r.
- move=> n_model n0 ge_m2; rewrite /valley_parabola /true_div intr_eq0.
  rewrite (negPf n0) /=.
  have [y -> /=] : exists y, linspace (x0 - 2^-1 * ((x0 - x0) / n_model%:~R))
      (x0 + 2^-1 * ((x0 - x0) / n_model%:~R)) (n_model + 2) = Return y.
    by apply: linspace_nonneg; rewrite -lerBlDr sub0r.
  by rewrite pnatr_eq0 /= /pow_minus2 subrr mul0r eqxx.
- move=> xn_x0; have d0 : xn - x0 != 0 by rewrite subr_eq0.
  rewrite /valley_parabola /true_div !intr_eq0 /= pnatr_eq0 /=.
  rewrite /pow_minus2 !mulf_eq0 invr_eq0 (negPf d0) pnatr_eq0 /=.
  split; congr (Return (_, _, _, _)).
    by rewrite mulrNz mulr1z invrN invr1 mulrN1 opprB.
  by rewrite mulrNz invrN mulrN -mulNr opprB.
Qed.

Lemma valley_parabola_edge_cases_witness :
  [/\ valley_parabola 0 0 1 (4^-1) = Throw ZeroDivisionError,
      valley_parabola (- 3) 0 1 (4^-1) = Throw PyValueError,
      valley_parabola 5 0 0 (4^-1) = Throw ZeroDivisionError
    & valley_parabola (- 1) 0 1 (4^-1) = Return ([::], [::], [::], 0 - 1)
      /\ valley_parabola (- 2) 0 1 (4^-1)
         = Return ([::], [::], [::], (0 - 1) / 2)].
Proof.
have [zero few flat empty] := valley_parabola_edge_cases 0 1 (4^-1).
have [zero0 _ flat0 _] := valley_parabola_edge_cases 0 0 (4^-1).
split=> //; first exact: few.
- exact: flat0.
- by apply: empty; rewrite oner_neq0.
Defined.

(** Two points per column: [pairs f g s] lists [f p; g p] for every [p] of
    [s], in order. *)
Definition pairs (T : Type) (f g : T -> R) (s : seq T) : seq R :=
  flatten [seq [:: f p; g p] | p <- s].

Lemma size_pairs (T : Type) (f g : T -> R) (s : seq T) :
  size (pairs f g s) = (size s).*2.
Proof. by elim: s => //= p s ->. Qed.

Lemma nth_pairs (T : Type) (f g : T -> R) (p0 : T) (s : seq T) (k : nat) :
  (k < size s)%N ->
  nth 0 (pairs f g s) k.*2 = f (nth p0 s k)
  /\ nth 0 (pairs f g s) k.*2.+1 = g (nth p0 s k).
Proof. by elim: s k => [|p s IH] [|k] //= /IH. Qed.

Lemma outline_loopE (hw : R) (xs ys accx accy : seq R) :
  outline_loop hw xs ys accx accy
  = (accx ++ pairs (fun p => p.1 - hw) (fun p => p.1 + hw) (zip xs ys),
     accy ++ pairs (fun p => p.2) (fun p => p.2) (zip xs ys)).
Proof.
elim: xs ys accx accy => [|x xs IH] [|y ys] accx accy /=; rewrite ?cats0 //.
by rewrite IH -!cats1 -!catA.
Qed.

Lemma generate_column_outlineE (x : R) (mx my : seq R) (width : R) :
  generate_column_outline (x :: mx) my width
  = Return
      (x - width / 2
       :: rcons (pairs (fun p => p.1 - width / 2) (fun p => p.1 + width / 2)
                   (zip (x :: mx) my))
            (last x mx + width / 2),
       0 :: rcons (pairs (fun p => p.2) (fun p => p.2) (zip (x :: mx) my)) 0).
Proof. by rewrite /generate_column_outline outline_loopE. Qed.

(** The points of the outline, for a list of abscissae that is not empty. *)
Lemma generate_column_outline_points (x : R) (rest midpoints_y : seq R)
    (width : R) :
  let midpoints_x := x :: rest in
  let columns := minn (size midpoints_x) (size midpoints_y) in
  exists x_values y_values : seq R,
    [/\ generate_column_outline midpoints_x midpoints_y width
        = Return (x_values, y_values),
        size x_values = (columns.*2 + 2)%N
        /\ size y_values = (columns.*2 + 2)%N,
        [/\ nth 0 x_values 0 = x - width / 2,
            nth 0 y_values 0 = 0,
            nth 0 x_values columns.*2.+1 = last x rest + width / 2
          & nth 0 y_values columns.*2.+1 = 0]
      & forall k, (k < columns)%N ->
          [/\ nth 0 x_values k.*2.+1 = nth 0 midpoints_x k - width / 2,
              nth 0 x_values k.*2.+2 = nth 0 midpoints_x k + width / 2,
              nth 0 y_values k.*2.+1 = nth 0 midpoints_y k
            & nth 0 y_values k.*2.+2 = nth 0 midpoints_y k]].
Proof.
move=> midpoints_x columns.
rewrite generate_column_outlineE; do 2![eexists]; split; first by [].
- by rewrite /= !size_rcons !size_pairs size_zip addn2.
- split=> //=.
  + by rewrite nth_rcons size_pairs size_zip ltnn eqxx.
  + by rewrite nth_rcons size_pairs size_zip ltnn eqxx.
- move=> k lt_k.
  have lt_k' : (k < size (zip midpoints_x midpoints_y))%N by rewrite size_zip.
  have lt2 : (k.*2.+1 < (size (zip midpoints_x midpoints_y)).*2)%N.
    by rewrite -doubleS leq_double.
  have [] := nth_pairs (fun p => p.1 - width / 2) (fun p => p.1 + width / 2)
               (0, 0) lt_k'.
  have [] := nth_pairs (fun p : R * R => p.2) (fun p => p.2) (0, 0) lt_k'.
  rewrite nth_zip_cond lt_k' /= => y1 y2 x1 x2.
  rewrite /= !nth_rcons !size_pairs lt2 (ltn_trans (ltnSn _) lt2).
  by rewrite y1 y2 x1 x2.
Qed.

(** The layout of a valley: [n] columns of equal width [w] side by side
    over [[x0, xn]], with depths between 0 and 900. *)
Lemma valley_layout (n : nat) (x0 xn r_std : R) :
  (0 < n)%N -> xn != x0 ->
  exists (m0 m0_x m0_std : seq R) (w : R),
    [/\ valley_parabola n x0 xn r_std = Return (m0, m0_x, m0_std, w),
        size m0 = n /\ size m0_x = n,
        w * n%:R = xn - x0,
        forall k, (k < n)%N ->
          nth 0 m0_x k - w / 2 = x0 + k%:R * w
          /\ nth 0 m0_x k + w / 2 = x0 + k.+1%:R * w
      & forall k, (k < n)%N -> 0 < nth 0 m0 k <= 900].
Proof.
move=> n_gt0 xn_x0; rewrite (valley_parabolaE r_std n_gt0 xn_x0).
do 4![eexists]; split; first by [].
- by rewrite !size_map !size_iota.
- exact: (@valley_width n x0 xn n_gt0).
- by move=> k lt_k; apply: (@valley_mid n x0 xn k lt_k).
- by move=> k lt_k; apply: (@valley_depth_range n n_gt0 k lt_k).
Qed.

(** The outline of such a valley. *)
Lemma valley_outline_points (n : nat) (x0 xn r_std : R) :
  (0 < n)%N -> xn != x0 ->
  exists (m0 m0_x m0_std x_values y_values : seq R) (w : R),
    [/\ valley_parabola n x0 xn r_std = Return (m0, m0_x, m0_std, w),
        generate_column_outline m0_x m0 w = Return (x_values, y_values),
        [/\ w * n%:R = xn - x0, size x_values = (n.*2 + 2)%N
          & size y_values = (n.*2 + 2)%N],
        [/\ nth 0 x_values 0 = x0, nth 0 y_values 0 = 0,
            nth 0 x_values n.*2.+1 = xn & nth 0 y_values n.*2.+1 = 0]
      & forall k, (k < n)%N ->
          [/\ nth 0 x_values k.*2.+1 = x0 + k%:R * w,
              nth 0 x_values k.*2.+2 = x0 + k.+1%:R * w,
              nth 0 y_values k.*2.+1 = nth 0 y_values k.*2.+2
            & 0 < nth 0 y_values k.*2.+1 <= 900]].
Proof.
move=> n_gt0 xn_x0.
have [m0 [m0_x [m0_std [w [valley [size_m0 size_mx] width mids depths]]]]] :=
  valley_layout r_std n_gt0 xn_x0.
case: m0_x size_mx mids valley => [|x rest] size_mx mids valley.
  by rewrite -size_mx in n_gt0.
have := generate_column_outline_points x rest m0 w.
cbv zeta; rewrite size_m0 size_mx minnn.
move=> [x_values [y_values [outline [size_x size_y] [x_0 y_0 x_n y_n] cols]]].
exists m0, (x :: rest), m0_std, x_values, y_values, w.
split=> //.
- split=> //.
    by rewrite x_0; have [-> _] := mids 0%N n_gt0; rewrite mul0r addr0.
  have lt_last : (size rest < n)%N by rewrite -size_mx /=.
  have [_ right] := mids _ lt_last.
  have size_rest : (size rest).+1 = n by [].
  by rewrite x_n (last_nth 0) right size_rest mulrC width addrC subrK.
- move=> k lt_k; have [x1 x2 y1 y2] := cols k lt_k.
  have [left right] := mids k lt_k.
  by rewrite x1 x2 y1 y2 left right depths.
Qed.

(** [generate_column_outline] throws [IndexError] on an empty list of
    abscissae.  Otherwise it returns two arrays of the same length, two
    entries per column and one more at each end, [zip] stopping at the
    shorter of the two inputs: the outline starts at depth 0 half a width
    left of the first abscissa and ends at depth 0 half a width right of the
    last one, and column [k] contributes its left and right edge, both at
    its own depth. *)
Theorem generate_column_outline_shape (midpoints_y : seq R) (width : R) :
  generate_column_outline [::] midpoints_y width = Throw PyIndexError
  /\ forall (x : R) (rest : seq R),
       let midpoints_x := x :: rest in
       let columns := minn (size midpoints_x) (size midpoints_y) in
       exists x_values y_values : seq R,
         [/\ generate_column_outline midpoints_x midpoints_y width
             = Return (x_values, y_values),
             size x_values = (columns.*2 + 2)%N
             /\ size y_values = (columns.*2 + 2)%N,
             [/\ nth 0 x_values 0 = x - width / 2,
                 nth 0 y_values 0 = 0,
                 nth 0 x_values columns.*2.+1 = last x rest + width / 2
               & nth 0 y_values columns.*2.+1 = 0]
           & forall k, (k < columns)%N ->
               [/\ nth 0 x_values k.*2.+1 = nth 0 midpoints_x k - width / 2,
                   nth 0 x_values k.*2.+2 = nth 0 midpoints_x k + width / 2,
                   nth 0 y_values k.*2.+1 = nth 0 midpoints_y k
                 & nth 0 y_values k.*2.+2 = nth 0 midpoints_y k]].
Proof. by split=> // x rest; apply: generate_column_outline_points. Qed.

Lemma generate_column_outline_shape_witness :
  generate_column_outline [::] [:: 1] 2 = Throw PyIndexError
  /\ exists x_values y_values : seq R,
       [/\ generate_column_outline [:: 1] [:: 5] 2
           = Return (x_values, y_values),
           size x_values = 4%N /\ size y_values = 4%N,
           [/\ nth 0 x_values 0 = 1 - 2 / 2, nth 0 y_values 0 = 0,
               nth 0 x_values 3 = 1 + 2 / 2 & nth 0 y_values 3 = 0]
         & forall k, (k < 1)%N ->
             [/\ nth 0 x_values k.*2.+1 = nth 0 [:: 1] k - 2 / 2,
                 nth 0 x_values k.*2.+2 = nth 0 [:: 1] k + 2 / 2,
                 nth 0 y_values k.*2.+1 = nth 0 [:: 5] k
               & nth 0 y_values k.*2.+2 = nth 0 [:: 5] k]].
Proof.
have [empty shape] := generate_column_outline_shape [:: 5] 2.
split; first exact: (generate_column_outline_shape [:: 1] 2).1.
exact: (shape 1 [::]).
Defined.

(** The outline of a valley: fed with what [valley_parabola] returns,
    [generate_column_outline] returns [2·n_model + 2] points that start at
    [(x0, 0)] and end at [(xn, 0)]; column [k] spans
    [[x0 + k·w, x0 + (k+1)·w]], so that each column starts where the one
    before it ends, and its depth is positive and at most 900. *)
Theorem valley_outline (n : nat) (x0 xn r_std : R) :
  (0 < n)%N -> xn != x0 ->
  exists (m0 m0_x m0_std x_values y_values : seq R) (w : R),
    [/\ valley_parabola n x0 xn r_std = Return (m0, m0_x, m0_std, w),
        generate_column_outline m0_x m0 w = Return (x_values, y_values),
        size x_values = (n.*2 + 2)%N /\ size y_values = (n.*2 + 2)%N,
        [/\ nth 0 x_values 0 = x0, nth 0 y_values 0 = 0,
            nth 0 x_values n.*2.+1 = xn & nth 0 y_values n.*2.+1 = 0]
      & forall k, (k < n)%N ->
          [/\ nth 0 x_values k.*2.+1 = x0 + k%:R * w,
              nth 0 x_values k.*2.+2 = x0 + k.+1%:R * w,
              nth 0 y_values k.*2.+1 = nth 0 y_values k.*2.+2
            & 0 < nth 0 y_values k.*2.+1 <= 900]].
Proof.
move=> n_gt0 xn_x0.
have [m0 [m0_x [m0_std [xs [ys [w]]]]]] :=
  valley_outline_points r_std n_gt0 xn_x0.
move=> [valley outline [_ size_xs size_ys] ends cols].
by exists m0, m0_x, m0_std, xs, ys, w; split.
Qed.

Lemma valley_outline_witness :
  exists (m0 m0_x m0_std x_values y_values : seq R) (w : R),
    [/\ valley_parabola 2%N 0 1 (4^-1) = Return (m0, m0_x, m0_std, w),
        generate_column_outline m0_x m0 w = Return (x_values, y_values),
        size x_values = (2.*2 + 2)%N /\ size y_values = (2.*2 + 2)%N,
        [/\ nth 0 x_values 0 = 0, nth 0 y_values 0 = 0,
            nth 0 x_values 2.*2.+1 = 1 & nth 0 y_values 2.*2.+1 = 0]
      & forall k, (k < 2)%N ->
          [/\ nth 0 x_values k.*2.+1 = 0 + k%:R * w,
              nth 0 x_values k.*2.+2 = 0 + k.+1%:R * w,
              nth 0 y_values k.*2.+1 = nth 0 y_values k.*2.+2
            & 0 < nth 0 y_values k.*2.+1 <= 900]].
Proof.
by apply: (@valley_outline 2 0 1 (4^-1)); rewrite ?oner_neq0.
Defined.

(** [plot_stations(ax, x_coords, color)]: the loop over [range(12)] keeps
    its variable [i], which the call after the loop reads again. *)
Fixpoint stations_loop (x_coords : seq R) (color : String.string)
    (todo : seq nat) (ax : axes) (i : option nat)
  : axes * outcome (option nat) :=
  match todo with
  | [::] => (ax, Return i)
  | k :: todo' =>
      match item x_coords k with
      | Throw e => (ax, Throw e)
      | Return x =>
          stations_loop x_coords color todo'
            (rcons ax (Patch (k%:R + x - 50) 0 100 25 (Named color) None None))
            (Some k)
      end
  end.

Definition plot_stations (ax : axes) (x_coords : seq R)
    (color : String.string) : axes * outcome unit :=
  match stations_loop x_coords color (iota 0 12) ax None with
  | (ax', Throw e) => (ax', Throw e)
  | (ax', Return None) => (ax', Throw UnboundLocalError)
  | (ax', Return (Some i)) =>
      match item x_coords 0 with
      | Throw e => (ax', Throw e)
      | Return x =>
          (rcons ax'
             (Patch (i%:R + x - 50) 0 100 25 (Named "k"%str) None
                (Some "station"%str)),
           Return tt)
      end
  end.

(** [plot_valley_outline(ax, m0_x, m0, x_width, color, linestyle, label)] *)
Definition plot_valley_outline (ax : axes) (m0_x m0 : seq R) (x_width : R)
    (color linestyle label : String.string) : axes * outcome unit :=
  match generate_column_outline m0_x m0 x_width with
  | Throw e => (ax, Throw e)
  | Return (x_outline, y_outline) =>
      (rcons ax (Line x_outline [seq - y | y <- y_outline]
                   color linestyle label),
       Return tt)
  end.

Lemma item_nth (T : Type) (x0 : T) (s : seq T) (i : nat) :
  item s i = if (i < size s)%N then Return (nth x0 s i) else Throw PyIndexError.
Proof.
elim: s i => [|x s IH] [|i] //=.
by rewrite /item /= -/(item s i) IH.
Qed.

(** The rectangle of station [k]. *)
Definition station_patch (x_coords : seq R) (color : String.string)
    (k : nat) : event :=
  Patch (k%:R + nth 0 x_coords k - 50) 0 100 25 (Named color) None None.

Lemma stations_loop_ok (x_coords : seq R) (color : String.string)
    (a n : nat) (ax : axes) (i : option nat) :
  (a + n <= size x_coords)%N ->
  stations_loop x_coords color (iota a n) ax i
  = (ax ++ [seq station_patch x_coords color k | k <- iota a n],
     Return (if n is 0 then i else Some (a + n).-1)).
Proof.
elim: n a ax i => [|n IH] a ax i /=; first by rewrite cats0.
rewrite addnS => lt_a; rewrite (item_nth 0) (leq_trans _ lt_a) ?ltnS ?leq_addr //.
rewrite IH ?addSn // cat_rcons; congr (_, Return _).
by case: n {IH lt_a} => [|n]; rewrite ?addn0 // addSn.
Qed.

Lemma stations_loop_short (x_coords : seq R) (color : String.string)
    (a n : nat) (ax : axes) (i : option nat) :
  (a <= size x_coords)%N -> (size x_coords < a + n)%N ->
  stations_loop x_coords color (iota a n) ax i
  = (ax ++ [seq station_patch x_coords color k
           | k <- iota a (size x_coords - a)],
     Throw PyIndexError).
Proof.
elim: n a ax i => [|n IH] a ax i /=; first by rewrite addn0 ltnNge => ->.
rewrite addnS ltnS (item_nth 0) leq_eqVlt => /predU1P[->|lt_a] le_n.
  by rewrite ltnn subnn cats0.
rewrite lt_a IH // ?addSn // cat_rcons subnS.
by rewrite -[in RHS](prednK (_ : 0 < size x_coords - a)%N) ?subn_gt0.
Qed.

(** With at least 12 abscissae [plot_stations] adds 13 rectangles of width
    100: the rectangle of station [k] starts at [k + x_coords[k] - 50], so
    that its middle is [k] to the right of the station, and the labelled
    rectangle that the legend shows is drawn with the index the loop ended
    on: it starts at [11 + x_coords[0] - 50], 11 to the right of the
    rectangle of station 0. *)
Theorem plot_stations_drawn (ax : axes) (x_coords : seq R)
    (color : String.string) :
  (12 <= size x_coords)%N ->
  plot_stations ax x_coords color
  = (ax ++ rcons [seq Patch (k%:R + nth 0 x_coords k - 50) 0 100 25
                        (Named color) None None | k <- iota 0 12]
             (Patch (11 + nth 0 x_coords 0 - 50) 0 100 25 (Named "k"%str)
                None (Some "station"%str)),
     Return tt).
Proof.
move=> enough; rewrite /plot_stations stations_loop_ok //.
by rewrite (item_nth 0) (leq_trans _ enough) // rcons_cat.
Qed.

(** With fewer than 12 abscissae [plot_stations] throws [IndexError], and
    the rectangles of the stations it met before are left on the axes. *)
Theorem plot_stations_short (ax : axes) (x_coords : seq R)
    (color : String.string) :
  (size x_coords < 12)%N ->
  plot_stations ax x_coords color
  = (ax ++ [seq Patch (k%:R + nth 0 x_coords k - 50) 0 100 25
                  (Named color) None None | k <- iota 0 (size x_coords)],
     Throw PyIndexError).
Proof.
by move=> short; rewrite /plot_stations stations_loop_short // subn0.
Qed.

Lemma plot_stations_drawn_witness :
  plot_stations [::] (nseq 12 0) "k"%str
  = ([::] ++ rcons [seq Patch (k%:R + nth 0 (nseq 12 0) k - 50) 0 100 25
                          (Named "k"%str) None None | k <- iota 0 12]
               (Patch (11 + nth 0 (nseq 12 0) 0 - 50) 0 100 25
                  (Named "k"%str) None (Some "station"%str)),
     Return tt).
Proof. exact: (@plot_stations_drawn [::] (nseq 12 0) "k"%str isT). Defined.

Lemma plot_stations_short_witness :
  plot_stations [::] [:: 7; 8] "k"%str
  = ([::] ++ [seq Patch (k%:R + nth 0 [:: 7; 8] k - 50) 0 100 25
                    (Named "k"%str) None None | k <- iota 0 2],
     Throw PyIndexError).
Proof. exact: (@plot_stations_short [::] [:: 7; 8] "k"%str isT). Defined.

(** The line [plot_valley_outline] draws for a valley made by
    [valley_parabola] with [x0 < xn]: one line of [2·n_model + 2] points
    from [(x0, 0)] to [(xn, 0)], every point of which lies between [x0] and
    [xn] and between the depths 0 and 900 below the surface (ordinates from
    [-900] to 0). *)
Theorem plot_valley_outline_valley (ax : axes) (n : nat) (x0 xn r_std : R)
    (color linestyle label : String.string) :
  (0 < n)%N -> x0 < xn ->
  exists (m0 m0_x m0_std xs ys : seq R) (w : R),
    [/\ valley_parabola n x0 xn r_std = Return (m0, m0_x, m0_std, w),
        plot_valley_outline ax m0_x m0 w color linestyle label
        = (rcons ax (Line xs ys color linestyle label), Return tt),
        size xs = (n.*2 + 2)%N /\ size ys = (n.*2 + 2)%N,
        [/\ nth 0 xs 0 = x0, nth 0 ys 0 = 0,
            nth 0 xs n.*2.+1 = xn & nth 0 ys n.*2.+1 = 0]
      & forall j, (j < n.*2 + 2)%N ->
          x0 <= nth 0 xs j <= xn /\ - 900 <= nth 0 ys j <= 0].
Proof.
move=> n_gt0 lt_x; have xn_x0 : xn != x0 by rewrite gt_eqF.
have [m0 [m0_x [m0_std [xs [ys [w]]]]]] :=
  valley_outline_points r_std n_gt0 xn_x0.
move=> [valley outline [width size_xs size_ys] [xs_0 ys_0 xs_n ys_n] cols].
exists m0, m0_x, m0_std, xs, [seq - y | y <- ys], w.
have n_pos : 0 < n%:R :> R by rewrite ltr0n.
have w_gt0 : 0 < w.
  by rewrite -(pmulr_lgt0 _ n_pos) width subr_gt0.
have inside (k : nat) : (k <= n)%N -> x0 <= x0 + k%:R * w <= xn.
  move=> le_k; rewrite lerDl mulr_ge0 ?ler0n ?(ltW w_gt0) //=.
  rewrite -lerBrDl -width mulrC ler_pM2l // ler_nat.
  exact: le_k.
split=> //.
- by rewrite /plot_valley_outline outline.
- by rewrite size_map.
- by rewrite !(nth_map 0) ?size_ys ?addn2 // ?ys_0 ?ys_n ?oppr0.
move=> j; rewrite addn2 => lt_j.
rewrite (nth_map 0) ?size_ys ?addn2 // lerNl opprK oppr_le0.
suff [-> -> -> ->] : [/\ x0 <= nth 0 xs j, nth 0 xs j <= xn,
                         nth 0 ys j <= 900 & 0 <= nth 0 ys j] by [].
case: j lt_j => [|j] lt_j; first by rewrite xs_0 ys_0 lexx (ltW lt_x) ler0n.
have [->|j_neq] := eqVneq j n.*2.
  by rewrite xs_n ys_n lexx (ltW lt_x) ler0n.
have lt_j2 : (j < n.*2)%N by rewrite ltn_neqAle j_neq -ltnS.
have lt_k : (j./2 < n)%N.
  rewrite -ltn_double (leq_ltn_trans _ lt_j2) //.
  by rewrite -{2}[j]odd_double_half leq_addl.
have [x1 x2 y12 /andP[/ltW depth_ge0 depth_le]] := cols _ lt_k.
have /andP[lo1 hi1] := inside _ (ltnW lt_k).
have /andP[lo2 hi2] := inside _ lt_k.
rewrite -[j]odd_double_half; case: (odd j); rewrite ?add1n ?add0n.
  by rewrite x2 -y12 lo2 hi2 depth_le depth_ge0.
by rewrite x1 lo1 hi1 depth_le depth_ge0.
Qed.

Lemma plot_valley_outline_valley_witness :
  exists (m0 m0_x m0_std xs ys : seq R) (w : R),
    [/\ valley_parabola 2%N 0 1 (4^-1) = Return (m0, m0_x, m0_std, w),
        plot_valley_outline [::] m0_x m0 w "k"%str ":"%str "valley"%str
        = (rcons [::] (Line xs ys "k"%str ":"%str "valley"%str), Return tt),
        size xs = (2.*2 + 2)%N /\ size ys = (2.*2 + 2)%N,
        [/\ nth 0 xs 0 = 0, nth 0 ys 0 = 0,
            nth 0 xs 2.*2.+1 = 1 & nth 0 ys 2.*2.+1 = 0]
      & forall j, (j < 2.*2 + 2)%N ->
          0 <= nth 0 xs j <= 1 /\ - 900 <= nth 0 ys j <= 0].
Proof.
exact: (@plot_valley_outline_valley [::] 2 0 1 (4^-1) "k"%str ":"%str
          "valley"%str isT ltr01).
Defined.

End e3_dependencies.

Module e2_dependencies.

(** [np.arange(start, stop)] on integers. *)
Definition arange (start stop : int) : seq int :=
  match stop - start with
  | Posz n => [seq start + Posz k | k <- iota 0 n]
  | Negz _ => [::]
  end.

(** The body of the loop of [plot_path_arrows], for one [i]. *)
Definition path_arrow (color : String.string) (ax : axes) (i : int) : axes :=
  if i <= 9 then
    rcons ax (Arrow 0 (i + 2)%:~R (i + 2)%:~R (- (i + 2))%:~R color)
  else if (9 < i) && (i <= 19) then
    rcons ax (Arrow 13 (21 - i)%:~R (- (21 - i))%:~R (- (21 - i))%:~R color)
  else rcons ax (Printed "range values out of range"%str).

(** [plot_path_arrows(ax, color, range)] *)
Definition plot_path_arrows (ax : axes) (color : String.string)
    (range : seq int) : axes * outcome unit :=
  match item range 0 with
  | Throw e => (ax, Throw e)
  | Return first =>
      match item range 1 with
      | Throw e => (ax, Throw e)
      | Return last =>
          (foldl (path_arrow color) ax (arange first (last + 1)), Return tt)
      end
  end.

(** [np.min(values)] and [np.max(values)] on a list that is not empty. *)
Definition np_min (values : seq R) : R := foldr Num.min (head 0 values) values.
Definition np_max (values : seq R) : R := foldr Num.max (head 0 values) values.

(** The rectangle of station [i]: [Rectangle((i-0.2+2, 0), 0.4, -0.5,
    facecolor=face, edgecolor=color)]. *)
Definition station_rectangle (color : String.string) (face : paint)
    (i : int) : event :=
  Patch (i%:~R - 2 / 10 + 2) 0 (4 / 10) (- (5 / 10)) face (Some color) None.

(** [plt.cm.get_cmap('viridis')]: the function left matplotlib with version
    3.9, and the call throws [AttributeError] from then on; which matplotlib
    is installed is an input of the model. *)
Variant matplotlib : Type := Before_3_9 | Since_3_9.

Definition get_cmap (mpl : matplotlib) : outcome unit :=
  if mpl is Before_3_9 then Return tt else Throw AttributeError.

(** [plot_stations(ax, color, values)]: nothing is returned without values,
    the colour map and the normalisation with ten of them. *)
Definition plot_stations (mpl : matplotlib) (ax : axes)
    (color : String.string) (values : seq R)
  : axes * outcome (option (R * R)) :=
  if size values == 0%N then
    (foldl (fun ax i => rcons ax (station_rectangle color (Named color) i))
       ax (arange 0 10),
     Return None)
  else if size values == 10%N then
    let vmin := np_min values in
    let vmax := np_max values in
    match get_cmap mpl with
    | Throw e => (ax, Throw e)
    | Return _ =>
        (foldl (fun ax i =>
                  rcons ax (station_rectangle color
                              (Viridis vmin vmax (nth 0 values `|i|%N)) i))
           ax (arange 0 10),
         Return (Some (vmin, vmax)))
    end
  else (ax, Throw TypeError).

Lemma foldl_rcons (T U : Type) (f : T -> U) (s : seq T) (acc : seq U) :
  foldl (fun acc x => rcons acc (f x)) acc s = acc ++ [seq f x | x <- s].
Proof.
by elim: s acc => [|x s IH] acc /=; rewrite ?cats0 // IH cat_rcons.
Qed.

Lemma arange_0_10 : arange 0 10 = [seq Posz k | k <- iota 0 10].
Proof. by []. Qed.

(** The tip of an arrow and the point where a station rectangle sits on the
    surface, in the middle of its side. *)
Definition arrow_tip (e : event) : option (R * R) :=
  if e is Arrow x y dx dy _ then Some (x + dx, y + dy) else None.

Definition patch_foot (e : event) : option (R * R) :=
  if e is Patch x y width _ _ _ _ then Some (x + width / 2, y) else None.

Lemma station_rectangle_foot (color : String.string) (face : paint)
    (k : nat) :
  patch_foot (station_rectangle color face k) = Some (k%:R + 2, 0).
Proof.
by rewrite /station_rectangle /= -pmulrn; congr (Some (_, _)); field.
Qed.

(** The ten rectangles of [plot_stations]: without values, or with ten
    values and a matplotlib that still has [get_cmap]. *)
Lemma plot_stationsE (mpl : matplotlib) (ax : axes) (color : String.string)
    (values : seq R) :
  size values = 0%N \/ (size values = 10%N /\ mpl = Before_3_9) ->
  plot_stations mpl ax color values
  = (ax ++ [seq station_rectangle color
                  (if size values == 0%N then Named color
                   else Viridis (np_min values) (np_max values)
                          (nth 0 values k))
                  (Posz k)
           | k <- iota 0 10],
     Return (if size values == 0%N then None
             else Some (np_min values, np_max values))).
Proof.
move=> size_values.
rewrite /plot_stations !foldl_rcons arange_0_10 -!map_comp.
case: ifP => [//|size_n0].
by case: size_values size_n0 => [->|[-> ->]].
Qed.

(** [plot_stations] throws [TypeError] when [values] has neither 0 nor 10
    entries, since [raise] is given a string and not an exception, and the
    axes are left as they were.  With ten values and a matplotlib from 3.9
    on it throws [AttributeError] before it draws anything.  Without values,
    or with ten values and an older matplotlib, it adds ten rectangles and
    throws nothing; rectangle [k] sits on the surface with its middle at the
    abscissa [k + 2]; it is filled with [color] when there are no values,
    and with the colour of [values[k]] on the scale from the least to the
    greatest value otherwise, the scale being what is returned. *)
Theorem plot_stations_outcome (mpl : matplotlib) (ax : axes)
    (color : String.string) (values : seq R) :
  [/\ size values != 0%N -> size values != 10%N ->
      plot_stations mpl ax color values = (ax, Throw TypeError),
      size values = 10%N ->
      plot_stations Since_3_9 ax color values = (ax, Throw AttributeError)
    & size values = 0%N \/ (size values = 10%N /\ mpl = Before_3_9) ->
      exists (new : seq event) (scale : option (R * R)),
        [/\ plot_stations mpl ax color values = (ax ++ new, Return scale),
            size new = 10%N,
            scale = (if size values == 0%N then None
                     else Some (np_min values, np_max values))
          & forall k, (k < 10)%N ->
              patch_foot (nth (Printed ""%str) new k) = Some (k%:R + 2, 0)
              /\ exists x y width height,
                   nth (Printed ""%str) new k
                   = Patch x y width height
                       (if size values == 0%N then Named color
                        else Viridis (np_min values) (np_max values)
                               (nth 0 values k))
                       (Some color) None]].
Proof.
split=> [/negPf n0 /negPf n10|size10|size_values].
- by rewrite /plot_stations n0 n10.
- by rewrite /plot_stations size10.
rewrite (plot_stationsE _ _ size_values).
do 2![eexists]; split; first by [].
- by rewrite size_map size_iota.
- by [].
- move=> k lt_k; rewrite (nth_map 0%N) ?size_iota // nth_iota // add0n.
  by rewrite station_rectangle_foot; split=> //; do 4![eexists].
Qed.

Lemma plot_stations_outcome_witness :
  [/\ plot_stations Before_3_9 [::] "black"%str [:: 1]
      = ([::], Throw TypeError),
      plot_stations Since_3_9 [::] "black"%str (nseq 10 1)
      = ([::], Throw AttributeError)
    & exists (new : seq event) (scale : option (R * R)),
        [/\ plot_stations Before_3_9 [::] "black"%str (nseq 10 1)
            = ([::] ++ new, Return scale),
            size new = 10%N,
            scale = Some (np_min (nseq 10 1), np_max (nseq 10 1))
          & forall k, (k < 10)%N ->
              patch_foot (nth (Printed ""%str) new k) = Some (k%:R + 2, 0)
              /\ exists x y width height,
                   nth (Printed ""%str) new k
                   = Patch x y width height
                       (Viridis (np_min (nseq 10 1)) (np_max (nseq 10 1))
                          (nth 0 (nseq 10 1) k))
                       (Some "black"%str) None]].
Proof.
have [wrong _ _] := plot_stations_outcome Before_3_9 [::] "black"%str [:: 1].
have [_ gone drawn] :=
  plot_stations_outcome Before_3_9 [::] "black"%str (nseq 10 1).
split; [exact: wrong | exact: gone | apply: drawn; right].
by rewrite size_nseq.
Defined.

(** What the loop draws or prints for one [i]. *)
Definition path_event (color : String.string) (i : int) : event :=
  if i <= 9 then Arrow 0 (i + 2)%:~R (i + 2)%:~R (- (i + 2))%:~R color
  else if i <= 19 then
    Arrow 13 (21 - i)%:~R (- (21 - i))%:~R (- (21 - i))%:~R color
  else Printed "range values out of range"%str.

Lemma path_arrowE (color : String.string) (ax : axes) (i : int) :
  path_arrow color ax i = rcons ax (path_event color i).
Proof.
rewrite /path_arrow /path_event; case: ifP => // /negbT.
by rewrite -ltNge => -> /=; case: ifP.
Qed.

Lemma plot_path_arrowsE (ax : axes) (color : String.string)
    (first last : int) (rest : seq int) :
  plot_path_arrows ax color (first :: last :: rest)
  = (ax ++ [seq path_event color i | i <- arange first (last + 1)],
     Return tt).
Proof.
rewrite /plot_path_arrows /item /=; congr (_, _).
elim: (arange _ _) ax => [|i s IH] ax /=; first by rewrite cats0.
by rewrite IH path_arrowE cat_rcons.
Qed.

Lemma arange_nat (first : int) (n : nat) :
  arange first (first + Posz n) = [seq first + Posz k | k <- iota 0 n].
Proof. by rewrite /arange addrC addKr. Qed.

Lemma arange_empty (first stop : int) : stop <= first -> arange first stop = [::].
Proof.
rewrite /arange -subr_le0; case: (stop - first) => // -[|n] //.
Qed.

Lemma path_event_tip (color : String.string) (i : int) :
  i <= 19 ->
  arrow_tip (path_event color i)
  = Some ((if i <= 9 then i + 2 else i - 8)%:~R, 0).
Proof.
rewrite /path_event => ->; case: ifP => _ /=; congr (Some (_, _)).
- by rewrite add0r.
- by rewrite rmorphN /= subrr.
- by rewrite rmorphN !rmorphB /=; ring.
- by rewrite rmorphN /= subrr.
Qed.

(** [plot_path_arrows] throws [IndexError] when [range] has fewer than two
    entries and draws nothing when [range[1] + 1 <= range[0]].  Otherwise it
    handles the integers from [range[0]] to [range[1]] in order, one event
    each: for [i <= 9], negative [i] included, an arrow from the left border
    [x = 0]; for [10 <= i <= 19] an arrow from the right border [x = 13];
    every arrow ends on the surface, at the abscissa [i + 2] resp. [i - 8];
    for [i > 19] nothing is drawn and the message is printed. *)
Theorem plot_path_arrows_outcome (ax : axes) (color : String.string) :
  [/\ forall range : seq int,
        (size range < 2)%N ->
        plot_path_arrows ax color range = (ax, Throw PyIndexError),
      forall (first last : int) (rest : seq int),
        last + 1 <= first ->
        plot_path_arrows ax color (first :: last :: rest) = (ax, Return tt)
    & forall (first last : int) (rest : seq int) (n : nat),
        last + 1 = first + Posz n ->
        exists new : seq event,
          [/\ plot_path_arrows ax color (first :: last :: rest)
              = (ax ++ new, Return tt),
              size new = n
            & forall k, (k < n)%N ->
                let i := first + Posz k in
                (i <= 19 ->
                 exists x y dx dy : R,
                   [/\ nth (Printed ""%str) new k = Arrow x y dx dy color,
                       x = (if i <= 9 then 0 else 13),
                       x + dx = (if i <= 9 then i + 2 else i - 8)%:~R
                     & y + dy = 0])
                /\ (19 < i ->
                    nth (Printed ""%str) new k
                    = Printed "range values out of range"%str)]].
Proof.
split.
- by case=> [|first [|last rest]].
- move=> first last rest /arange_empty empty.
  by rewrite plot_path_arrowsE empty cats0.
- move=> first last rest n stop; rewrite plot_path_arrowsE stop arange_nat.
  eexists; split; first by [].
    by rewrite !size_map size_iota.
  move=> k lt_k i; rewrite -map_comp (nth_map 0%N) ?size_iota // nth_iota //.
  rewrite add0n /comp -/i; split=> [le_i|gt_i]; last first.
    rewrite /path_event leNgt (lt_trans _ gt_i) //=.
    by rewrite leNgt gt_i.
  have := path_event_tip color le_i.
  rewrite /path_event le_i; case: ifP => _ /= [tip_x tip_y].
    by exists 0, (i + 2)%:~R, (i + 2)%:~R, (- (i + 2))%:~R.
  by exists 13, (21 - i)%:~R, (- (21 - i))%:~R, (- (21 - i))%:~R.
Qed.

Lemma plot_path_arrows_outcome_witness :
  [/\ plot_path_arrows [::] "black"%str [:: 0] = ([::], Throw PyIndexError),
      plot_path_arrows [::] "black"%str [:: 5; 3] = ([::], Return tt)
    & exists new : seq event,
        [/\ plot_path_arrows [::] "black"%str [:: 0; 19]
            = ([::] ++ new, Return tt),
            size new = 20%N
          & forall k, (k < 20)%N ->
              let i := 0 + Posz k in
              (i <= 19 ->
               exists x y dx dy : R,
                 [/\ nth (Printed ""%str) new k
                     = Arrow x y dx dy "black"%str,
                     x = (if i <= 9 then 0 else 13),
                     x + dx = (if i <= 9 then i + 2 else i - 8)%:~R
                   & y + dy = 0])
              /\ (19 < i ->
                  nth (Printed ""%str) new k
                  = Printed "range values out of range"%str)]].
Proof.
have [short empty drawn] := plot_path_arrows_outcome [::] "black"%str.
split; [exact: short | exact: empty | exact: (drawn 0 19 [::] 20%N)].
Defined.

(** Every ray ends at a station: when [range] lies within 0 and 19 and
    [plot_stations] has drawn its rectangles (no values, or ten values and
    a matplotlib before 3.9), each event of [plot_path_arrows] is an arrow,
    and its tip is the point where one of the ten rectangles sits on the
    surface: the rectangle of station [i] for the arrow of [i <= 9], of
    station [i - 10] for the arrow of [i >= 10]. *)
Theorem arrows_end_at_stations (mpl : matplotlib)
    (color station_color : String.string)
    (values : seq R) (first last : int) (n : nat) :
  0 <= first -> last <= 19 -> last + 1 = first + Posz n ->
  size values = 0%N \/ (size values = 10%N /\ mpl = Before_3_9) ->
  forall k, (k < n)%N ->
    let i := absz (first + Posz k) in
    let station := (if i < 10 then i else i - 10)%N in
    let arrows := (plot_path_arrows [::] color [:: first; last]).1 in
    let stations := (plot_stations mpl [::] station_color values).1 in
    exists x y : R,
      arrow_tip (nth (Printed ""%str) arrows k) = Some (x, y)
      /\ patch_foot (nth (Printed ""%str) stations station) = Some (x, y).
Proof.
move=> first_ge0 last_le19 stop size_values k lt_k i station arrows stations.
have i_ge0 : 0 <= first + Posz k by rewrite addr_ge0.
have def_i : first + Posz k = Posz i by rewrite /i gez0_abs.
have le_i : first + Posz k <= 19.
  apply: le_trans last_le19; rewrite -ltzD1 stop.
  by rewrite ltrD2l ltz_nat.
have lt_i : (i < 20)%N by rewrite -ltz_nat -def_i (le_lt_trans le_i).
have lt_station : (station < 10)%N.
  by rewrite /station; case: (ltnP i 10) => // le_i10; rewrite ltn_subLR.
have -> : arrows = [seq path_event color (first + Posz j) | j <- iota 0 n].
  by rewrite /arrows plot_path_arrowsE stop arange_nat -map_comp.
have -> : stations
          = [seq station_rectangle station_color
                   (if size values == 0%N then Named station_color
                    else Viridis (np_min values) (np_max values)
                           (nth 0 values j))
                   (Posz j)
            | j <- iota 0 10].
  by rewrite /stations (plot_stationsE _ _ size_values).
rewrite (nth_map 0%N) ?size_iota // (nth_map 0%N) ?size_iota //.
rewrite !nth_iota // !add0n path_event_tip // station_rectangle_foot.
do 2![eexists]; split; first by [].
congr (Some (_, _)).
rewrite def_i lez_nat /station ltnS; case: leqP => [le9|gt9].
  by rewrite rmorphD /= -pmulrn.
rewrite natrB // -[Posz i - 8]/(Posz i - Posz 8) rmorphB /= -!pmulrn.
by ring.
Qed.

Lemma arrows_end_at_stations_witness :
  exists x y : R,
    arrow_tip (nth (Printed ""%str)
                 (plot_path_arrows [::] "black"%str [:: 0; 19]).1 12)
    = Some (x, y)
    /\ patch_foot (nth (Printed ""%str)
                     (plot_stations Since_3_9 [::] "black"%str [::]).1 2)
       = Some (x, y).
Proof.
apply: (@arrows_end_at_stations Since_3_9 "black"%str "black"%str [::] 0 19
          20 isT isT erefl (or_introl erefl) 12 isT).
Defined.

End e2_dependencies.
